(** * HyperLogLog sketch and bit aggregates of DuckDB: a shallow embedding

    Sources embedded here:
    - [src/common/types/hyperloglog.cpp]: [HyperLogLog::Merge],
      [HyperLogLog::ExtractCounts], [HyperLogLog::Count], and the legacy
      image [HLLV1] with [ToNew] and [FromNew];
    - [src/function/aggregate/distributive/bitagg.cpp]: the scalar family
      [BitwiseOperation] / [BitAndOperation] / [BitOrOperation] /
      [BitXorOperation], the bitstring family [BitStringBitwiseOperation],
      the range bitmap [BitStringAggOperation] and [BitstringPropagateStats].

    Integers of the program are [Z] with their wrap-around written out,
    arrays are lists read with [!!!] and updated with [<[i:=x]>], heap
    buffers live in a finite map from addresses to blocks of bytes. Reading
    an array past its end is undefined in C++; [!!!] then yields a fixed
    value that no statement below depends on, and a write past the end of a
    bitmap is reported as undefined behaviour. *)

From Stdlib Require Import ZArith Lia.
From stdpp Require Import base gmap list strings.

Open Scope Z_scope.
Set Default Proof Using "Type".

Section Embedding.

(** ** Results of a call: a value, a C++ exception, or undefined behaviour *)

Inductive exception :=
| OutOfRangeException (msg : string)
| BinderException (msg : string)
| InternalException (msg : string).

Inductive undefined :=
| SignedOverflow
| OutOfBoundsWrite
| DanglingPointer
| DoubleFree
| NullValueRead
| ContractViolation.

Inductive result (A : Type) :=
| Ok (a : A)
| Throw (e : exception)
| Undefined (u : undefined).

Arguments Ok {A} a.
Arguments Throw {A} e.
Arguments Undefined {A} u.

(** A computation over a mutable store [S]. The store comes back also when
    the call throws: what was written before the [throw] stays written. *)
Definition M (S A : Type) : Type := S -> result A * S.

Definition ret {S A} (a : A) : M S A := fun s => (Ok a, s).

Definition bind {S A B} (m : M S A) (k : A -> M S B) : M S B :=
  fun s =>
    match m s with
    | (Ok a, s') => k a s'
    | (Throw e, s') => (Throw e, s')
    | (Undefined u, s') => (Undefined u, s')
    end.

Definition throw {S A} (e : exception) : M S A := fun s => (Throw e, s).
Definition undef {S A} (u : undefined) : M S A := fun s => (Undefined u, s).
Definition put {S} (s : S) : M S unit := fun _ => (Ok tt, s).

Notation "x <- m ;; k" := (bind m (fun x => k))
  (at level 100, m at next level, right associativity).
Notation "m ;;; k" := (bind m (fun _ => k))
  (at level 100, right associativity).

(** ** hyperloglog.cpp *)

(** Constants and helpers that the file takes from [hyperloglog.hpp] and
    from the [duckdb_hll] library. Neither header is among the sources, so
    the constants are parameters. The three functions below compute in
    [double]; they are kept abstract and every statement holds for all of
    them. *)
Variable M_regs : nat.               (* HyperLogLog::M *)
Variable Q : nat.                    (* HyperLogLog::Q *)
Variable num_registers : nat.        (* duckdb_hll::num_registers() *)
Variable maximum_zeros : Z.          (* duckdb_hll::maximum_zeros(), a uint8_t *)
Variable EstimateCardinality : list Z -> Z.      (* lines 72-83 *)
Variable hll_count : list Z -> Z.                (* HLLV1::Count, lines 192-198 *)
Variable IsWithinAcceptableRange : Z -> Z -> bool. (* lines 200-204 *)

Definition idx_t (z : Z) : Z := z mod 2 ^ 64.
Definition uint32_t (z : Z) : Z := z mod 2 ^ 32.


Definition Update (k : list Z) (i : nat) (v : Z) : list Z :=
  <[i := Z.max (k !!! i) v]> k.

(** Modelled from the spec: [HyperLogLog::InsertElement(hash)], declared in
    hyperloglog.hpp; section 4.1: the register index is the low [log2 M] bits
    of the hash, the residual is the rest, and the register receives
    [leading_zero_count(residual) + 1] clamped to [Q + 1]. The residual has
    [Q] bits. *)
Definition register_index (hash : Z) : nat :=
  Z.to_nat (hash mod Z.of_nat M_regs).

Definition leading_zero_count (residual : Z) : Z :=
  if residual <=? 0 then Z.of_nat Q else Z.of_nat Q - (Z.log2 residual + 1).

Definition register_zeros (hash : Z) : Z :=
  Z.min (leading_zero_count (hash / Z.of_nat M_regs) + 1) (Z.of_nat Q + 1).

Definition InsertElement (k : list Z) (hash : Z) : list Z :=
  Update k (register_index hash) (register_zeros hash).

(** A sketch as its constructor leaves it, and the sketch of a stream. *)
Definition HyperLogLog_new : list Z := replicate M_regs 0.

Definition sketch_of (hashes : list Z) : list Z :=
  fold_left InsertElement hashes HyperLogLog_new.

(** [HyperLogLog::Merge], lines 24-28. *)
Definition Merge (k other : list Z) : list Z :=
  fold_left (fun acc i => Update acc i (other !!! i)) (seq 0 M_regs) k.

(** [HyperLogLog::ExtractCounts], lines 31-35: [c] has [Q + 2] counters of
    type uint32_t. *)
Definition ExtractCounts (k : list Z) (c : list Z) : list Z :=
  fold_left (fun c i =>
               let r := Z.to_nat (k !!! i) in
               <[r := uint32_t (c !!! r + 1)]> c)
            (seq 0 M_regs) c.


(** *** class HLLV1 *)

Definition get_register (hll : list Z) (i : nat) : Z := hll !!! i.

Definition mult : nat := (num_registers / M_regs)%nat.

(** [HLLV1::ToNew], lines 134-146. *)
Definition ToNew_max_old (hll : list Z) (i : nat) : Z :=
  fold_left (fun max_old j => Z.max max_old (get_register hll (i * mult + j)))
            (seq 0 mult) 0.

Definition ToNew (hll : list Z) (new_hll : list Z) : list Z :=
  fold_left (fun new_hll i => Update new_hll i (ToNew_max_old hll i))
            (seq 0 M_regs) new_hll.











(** ** bitagg.cpp: the scalar family *)

(** The integer types of [GetBitfieldUnaryAggregate] and
    [GetBitStringAggregate]. *)
Inductive LogicalTypeId :=
| TINYINT | SMALLINT | INTEGER | BIGINT | HUGEINT
| UTINYINT | USMALLINT | UINTEGER | UBIGINT.

(** [BitState<T>], lines 13-17. Before the first [Assign] the field [value]
    holds whatever the state arena held. *)
Record BitState (T : Type) := mkBitState { is_set : bool; value : T }.
Arguments mkBitState {T} is_set value.
Arguments is_set {T} b.
Arguments value {T} b.

(** [GetBitfieldUnaryAggregate], lines 19-43: the state of an N-bit input,
    signed or not, is the unsigned N-bit integer; a hugeint keeps its type.
    [state_cast] is the conversion that [state->value = ...] performs. *)
Definition state_bits (type : LogicalTypeId) : Z :=
  match type with
  | TINYINT | UTINYINT => 8
  | SMALLINT | USMALLINT => 16
  | INTEGER | UINTEGER => 32
  | BIGINT | UBIGINT => 64
  | HUGEINT => 128
  end.

Definition state_cast (type : LogicalTypeId) (z : Z) : Z :=
  match type with
  | HUGEINT => (z + 2 ^ 127) mod 2 ^ 128 - 2 ^ 127
  | _ => z mod 2 ^ state_bits type
  end.

(** The three operators: [BitAndOperation], [BitOrOperation],
    [BitXorOperation] (lines 102-129), each with its [Execute]. *)
Inductive OP := BitAndOperation | BitOrOperation | BitXorOperation.

Definition Execute (op : OP) (type : LogicalTypeId) (state : BitState Z) (input : Z)
  : BitState Z :=
  let v := match op with
           | BitAndOperation => Z.land (value state) input
           | BitOrOperation => Z.lor (value state) input
           | BitXorOperation => Z.lxor (value state) input
           end in
  mkBitState (is_set state) (state_cast type v).

(** [BitwiseOperation::Initialize], lines 46-50. *)
Definition Initialize {T} (state : BitState T) : BitState T :=
  mkBitState false (value state).

(** [BitwiseOperation::Assign], lines 68-71. *)
Definition Assign (type : LogicalTypeId) (state : BitState Z) (input : Z) : BitState Z :=
  mkBitState (is_set state) (state_cast type input).

(** [BitwiseOperation::Operation], lines 52-60. *)
Definition Operation (op : OP) (type : LogicalTypeId) (state : BitState Z) (input : Z)
  : BitState Z :=
  if negb (is_set state) then
    let state := Assign type state input in
    mkBitState true (value state)
  else Execute op type state input.

(** The loop of [BitXorOperation::ConstantOperation], lines 125-127. *)
Fixpoint BitXor_loop (type : LogicalTypeId) (count : nat) (state : BitState Z) (input : Z)
  : BitState Z :=
  match count with
  | O => state
  | S count' => BitXor_loop type count' (Operation BitXorOperation type state input) input
  end.

(** [ConstantOperation]: [BitwiseOperation]'s (lines 62-66) calls
    [Operation] once whatever [count] is, [BitXorOperation] overrides it
    (lines 122-128). *)
Definition ConstantOperation (op : OP) (type : LogicalTypeId) (state : BitState Z)
           (input : Z) (count : nat) : BitState Z :=
  match op with
  | BitXorOperation => BitXor_loop type count state input
  | _ => Operation op type state input
  end.

(** [BitwiseOperation::Combine], lines 73-86, for the scalar states. *)
Definition Combine (op : OP) (type : LogicalTypeId) (source target : BitState Z)
  : BitState Z :=
  if negb (is_set source) then target
  else if negb (is_set target) then
    let target := Assign type target (value source) in
    mkBitState true (value target)
  else Execute op type target (value source).


(** What the aggregate executor does with a plain vector: one [Operation]
    per row. *)
Definition Operation_rows (op : OP) (type : LogicalTypeId) (state : BitState Z)
           (rows : list Z) : BitState Z :=
  fold_left (Operation op type) rows state.

(** ** bitagg.cpp: heap buffers and [string_t] *)

(** The heap: every live [new char[len]] block, by address. *)
Abbreviation heap := (gmap positive (list Z)).

(** [string_t::INLINE_LENGTH] is a constant of string_type.hpp, which is not
    among the sources. [junk i] is the byte that a fresh block holds at
    offset [i] before anything is written to it. *)
Variable INLINE_LENGTH : nat.
Variable junk : nat -> Z.

(** Modelled from the spec: [string_t] (string_type.hpp); the glossary:
    short payloads live inside the struct, longer payloads in a heap buffer
    that the struct points to. Both are decided by the length alone. *)
Inductive string_t :=
| Inlined (data : list Z)
| Pointer (ptr : positive) (len : nat).

Definition GetSize (s : string_t) : nat :=
  match s with Inlined data => length data | Pointer _ len => len end.

Definition IsInlined (s : string_t) : bool :=
  match s with Inlined _ => true | Pointer _ _ => false end.

Definition GetDataUnsafe (s : string_t) : option positive :=
  match s with Inlined _ => None | Pointer ptr _ => Some ptr end.

(** [new char[len]] and [delete[] ptr]. *)
Definition new_array (len : nat) : M heap positive :=
  fun h => let ptr := fresh (dom h) in (Ok ptr, <[ptr := junk <$> seq 0 len]> h).

Definition delete_array (ptr : positive) : M heap unit :=
  fun h => match h !! ptr with
           | Some _ => (Ok tt, delete ptr h)
           | None => (Undefined DoubleFree, h)
           end.

(** The constructor [string_t(ptr, len)]: a short string copies the bytes
    into the struct and does not keep [ptr]. *)
Definition string_t_ctor (ptr : positive) (len : nat) : M heap string_t :=
  fun h => if decide (len <= INLINE_LENGTH)%nat
           then match h !! ptr with
                | Some block => (Ok (Inlined (take len block)), h)
                | None => (Undefined DanglingPointer, h)
                end
           else (Ok (Pointer ptr len), h).

(** Reading the bytes of a string, and writing them in place: for an inlined
    string the struct itself changes, otherwise the block it points to. *)
Definition read_bytes (s : string_t) : M heap (list Z) :=
  fun h => match s with
           | Inlined data => (Ok data, h)
           | Pointer ptr len =>
               match h !! ptr with
               | Some block => (Ok (take len block), h)
               | None => (Undefined DanglingPointer, h)
               end
           end.

Definition write_bytes (s : string_t) (data : list Z) : M heap string_t :=
  fun h => match s with
           | Inlined _ => (Ok (Inlined data), h)
           | Pointer ptr len =>
               match h !! ptr with
               | Some block => (Ok s, <[ptr := data ++ drop len block]> h)
               | None => (Undefined DanglingPointer, h)
               end
           end.

(** Modelled from the spec: the [Bit] primitives (bit.hpp), section 6. The
    header byte holds the number of padding bits, the payload follows, most
    significant bit first, the padding in front. *)
Definition ComputePadding (len : Z) : Z := (8 - len mod 8) mod 8.

Definition BitLength (data : list Z) : Z :=
  (Z.of_nat (length data) - 1) * 8 - data !!! 0%nat.

Definition GetBit_bytes (data : list Z) (n : Z) : bool :=
  let m := n + data !!! 0%nat in
  Z.testbit (data !!! Z.to_nat (m / 8 + 1)) (7 - m mod 8).

Definition SetBit_bytes (data : list Z) (n : Z) (new_value : Z) : option (list Z) :=
  let m := n + data !!! 0%nat in
  let idx := Z.to_nat (m / 8 + 1) in
  if decide (idx < length data)%nat then
    Some (<[idx := if new_value =? 0
                   then Z.clearbit (data !!! idx) (7 - m mod 8)
                   else Z.setbit (data !!! idx) (7 - m mod 8)]> data)
  else None.

Definition Bitwise_bytes (f : Z -> Z -> Z) (lhs rhs : list Z) : list Z :=
  match lhs, rhs with
  | l0 :: lhs', _ :: rhs' => l0 :: zip_with f lhs' rhs'
  | _, _ => []
  end.

Definition SetEmptyBitString (target : string_t) (len : Z) : M heap string_t :=
  write_bytes target (<[0%nat := ComputePadding len]> (replicate (GetSize target) 0)).

Definition SetBit (bit_string : string_t) (n : Z) (new_value : Z) : M heap string_t :=
  data <- read_bytes bit_string ;;
  match SetBit_bytes data n new_value with
  | Some data' => write_bytes bit_string data'
  | None => undef OutOfBoundsWrite
  end.

Definition Bitwise (f : Z -> Z -> Z) (lhs rhs result : string_t) : M heap string_t :=
  l <- read_bytes lhs ;;
  r <- read_bytes rhs ;;
  if decide (length l = length r /\ GetSize result = length l)
  then write_bytes result (Bitwise_bytes f l r)
  else undef ContractViolation.

(** Stores that pair a state with the heap. *)
Definition on_heap {ST A} (m : M heap A) : M (ST * heap) A :=
  fun '(state, h) => let '(r, h') := m h in (r, (state, h')).
Definition get_state {ST} : M (ST * heap) ST :=
  fun '(state, h) => (Ok state, (state, h)).
Definition modify_state {ST} (f : ST -> ST) : M (ST * heap) unit :=
  fun '(state, h) => (Ok tt, (f state, h)).

Definition set_is_set {T} (b : bool) (state : BitState T) : BitState T :=
  mkBitState b (value state).
Definition set_value {T} (v : T) (state : BitState T) : BitState T :=
  mkBitState (is_set state) v.

(** ** bitagg.cpp: the bitstring family, lines 131-192 *)

Inductive StringOP :=
| BitStringAndOperation | BitStringOrOperation | BitStringXorOperation.

(** [BitStringBitwiseOperation::Destroy], lines 132-137. *)
Definition BitString_Destroy : M (BitState string_t * heap) unit :=
  state <- get_state ;;
  if is_set state && negb (IsInlined (value state)) then
    match GetDataUnsafe (value state) with
    | Some ptr => on_heap (delete_array ptr)
    | None => ret tt
    end
  else ret tt.

(** The copy of lines 145-149 and 346-349: a fresh block, [memcpy], and a
    [string_t] on the block. *)
Definition copy_string (input : string_t) : M heap string_t :=
  let len := GetSize input in
  ptr <- new_array len ;;
  data <- read_bytes input ;;
  (fun h => (Ok tt, <[ptr := data]> h)) ;;;
  string_t_ctor ptr len.

(** [BitStringBitwiseOperation::Assign], lines 139-151. *)
Definition BitString_Assign (input : string_t) : M (BitState string_t * heap) unit :=
  if IsInlined input then modify_state (set_value input)
  else
    v <- on_heap (copy_string input) ;;
    modify_state (set_value v).

(** [Execute] of the three operators, lines 163-184. *)
Definition BitString_Execute (op : StringOP) (input : string_t)
  : M (BitState string_t * heap) unit :=
  state <- get_state ;;
  v <- on_heap (Bitwise (match op with
                         | BitStringAndOperation => Z.land
                         | BitStringOrOperation => Z.lor
                         | BitStringXorOperation => Z.lxor
                         end) input (value state) (value state)) ;;
  modify_state (set_value v).


(** [BitwiseOperation::Combine], lines 73-86, at a bitstring state: the
    source is read only, the store holds the target. *)
Definition BitString_Combine (op : StringOP) (source : BitState string_t)
  : M (BitState string_t * heap) unit :=
  if negb (is_set source) then ret tt
  else
    target <- get_state ;;
    if negb (is_set target) then
      BitString_Assign (value source) ;;;
      modify_state (set_is_set true)
    else BitString_Execute op (value source).


(** ** bitagg.cpp: the range bitmap, lines 228-372 *)

(** [BitAggState<string_t, INPUT_TYPE>], lines 228-234. *)
Record BitAggState := mkBitAggState {
  agg_is_set : bool;
  agg_value : string_t;
  agg_min : Z;
  agg_max : Z
}.

Definition agg_set_is_set (b : bool) (st : BitAggState) : BitAggState :=
  mkBitAggState b (agg_value st) (agg_min st) (agg_max st).
Definition agg_set_value (v : string_t) (st : BitAggState) : BitAggState :=
  mkBitAggState (agg_is_set st) v (agg_min st) (agg_max st).
Definition agg_set_min (z : Z) (st : BitAggState) : BitAggState :=
  mkBitAggState (agg_is_set st) (agg_value st) z (agg_max st).
Definition agg_set_max (z : Z) (st : BitAggState) : BitAggState :=
  mkBitAggState (agg_is_set st) (agg_value st) (agg_min st) z.

(** [BitstringAggBindData], lines 236-254: two [Value]s, [None] for a NULL. *)
Record BitstringAggBindData := mkBindData {
  bind_min : option Z;
  bind_max : option Z
}.

(** [Value::GetValueUnsafe<INPUT_TYPE>]: no check; reading a NULL is outside
    its contract. *)
Definition GetValueUnsafe {S} (v : option Z) : M S Z :=
  match v with Some z => ret z | None => undef NullValueRead end.

(** Arithmetic of C++ on the operands of type [INPUT_TYPE]: the narrow types
    are promoted to [int]; signed overflow is undefined, unsigned arithmetic
    wraps. *)
Inductive arith_kind := SignedArith (bits : Z) | UnsignedArith (bits : Z).

Definition arith_of (type : LogicalTypeId) : arith_kind :=
  match type with
  | TINYINT | SMALLINT | INTEGER | UTINYINT | USMALLINT => SignedArith 32
  | UINTEGER => UnsignedArith 32
  | BIGINT => SignedArith 64
  | UBIGINT => UnsignedArith 64
  | HUGEINT => SignedArith 128
  end.

Definition arith {S} (k : arith_kind) (z : Z) : M S Z :=
  match k with
  | SignedArith bits =>
      if (- 2 ^ (bits - 1) <=? z) && (z <? 2 ^ (bits - 1)) then ret z
      else undef SignedOverflow
  | UnsignedArith bits => ret (z mod 2 ^ bits)
  end.

(** Modelled from the spec: the operators of [hugeint_t] and
    [Hugeint::TryCast] to [idx_t] (hugeint.hpp); section 4.6: the arithmetic
    is done in the 128-bit type, overflow is an out-of-range error, and the
    narrowing to the index type fails when the value does not fit. *)
Definition hugeint_arith {S} (z : Z) : M S Z :=
  if (- 2 ^ 127 <=? z) && (z <? 2 ^ 127) then ret z
  else throw (OutOfRangeException "Overflow in HUGEINT arithmetic").

Definition Hugeint_TryCast (z : Z) : option Z :=
  if (0 <=? z) && (z <? 2 ^ 64) then Some z else None.

(** [BitStringAggOperation::Initialize], lines 257-260. *)
Definition BitStringAgg_Initialize : M (BitAggState * heap) unit :=
  modify_state (agg_set_is_set false).

(** [BitStringAggOperation::GetRange], lines 297-300, and its
    specialisation for [hugeint_t], lines 302-310. The result is an [idx_t]. *)
Definition BitStringAgg_GetRange {S} (type : LogicalTypeId) (min max : Z) : M S Z :=
  match type with
  | HUGEINT =>
      d <- hugeint_arith (max - min) ;;
      r <- hugeint_arith (d + 1) ;;
      match Hugeint_TryCast r with
      | Some val => ret val
      | None => throw (OutOfRangeException "Range too large for bitstring aggregation")
      end
  | _ =>
      d <- arith (arith_of type) (max - min) ;;
      r <- arith (arith_of type) (d + 1) ;;
      ret (idx_t r)
  end.

(** [BitStringAggOperation::Execute], lines 312-315, and its overload for
    [hugeint_t], lines 317-325. *)
Definition BitStringAgg_SetBit (n : Z) : M (BitAggState * heap) unit :=
  state <- get_state ;;
  v <- on_heap (SetBit (agg_value state) n 1) ;;
  modify_state (agg_set_value v).

Definition BitStringAgg_Execute (type : LogicalTypeId) (input min : Z)
  : M (BitAggState * heap) unit :=
  match type with
  | HUGEINT =>
      d <- hugeint_arith (input - min) ;;
      match Hugeint_TryCast d with
      | Some val => BitStringAgg_SetBit val
      | None => throw (OutOfRangeException "Range too large for bitstring aggregation")
      end
  | _ =>
      d <- arith (arith_of type) (input - min) ;;
      BitStringAgg_SetBit (idx_t d)
  end.

(** [BitStringAggOperation::Operation], lines 262-289: first the body of
    [if (!state->is_set)], lines 266-280, with the length of line 273-274,
    then the whole function. The message of the second exception is the
    format string; the three values are formatted into it. *)
Definition bitmap_len (bit_range : Z) : Z :=
  (if negb (bit_range mod 8 =? 0) then bit_range / 8 + 1 else bit_range / 8) + 1.

Definition BitStringAgg_first (type : LogicalTypeId) (bind_agg_data : BitstringAggBindData)
  : M (BitAggState * heap) unit :=
  bmin <- GetValueUnsafe (bind_min bind_agg_data) ;;
  modify_state (agg_set_min bmin) ;;;
  bmax <- GetValueUnsafe (bind_max bind_agg_data) ;;
  modify_state (agg_set_max bmax) ;;;
  bit_range <- BitStringAgg_GetRange type bmin bmax ;;
  if 1000000000 <? bit_range then
    throw (OutOfRangeException
             "The range between min and max value is too large for bitstring aggregation")
  else
    let len := bitmap_len bit_range in
    ptr <- on_heap (new_array (Z.to_nat len)) ;;
    target <- on_heap (string_t_ctor ptr (Z.to_nat (uint32_t len))) ;;
    target <- on_heap (SetEmptyBitString target bit_range) ;;
    modify_state (agg_set_value target) ;;;
    modify_state (agg_set_is_set true).

Definition BitStringAgg_Operation (type : LogicalTypeId) (bind_agg_data : BitstringAggBindData)
           (input : Z) : M (BitAggState * heap) unit :=
  state <- get_state ;;
  (if negb (agg_is_set state) then BitStringAgg_first type bind_agg_data else ret tt) ;;;
  state <- get_state ;;
  if (agg_min state <=? input) && (input <=? agg_max state) then
    bmin <- GetValueUnsafe (bind_min bind_agg_data) ;;
    BitStringAgg_Execute type input bmin
  else
    throw (OutOfRangeException
             "Value %s is outside of provided min and max range (%s <-> %s)").

(** [BitStringAggOperation::ConstantOperation], lines 291-295. *)
Definition BitStringAgg_ConstantOperation (type : LogicalTypeId)
           (bind_agg_data : BitstringAggBindData) (input : Z) (count : nat)
  : M (BitAggState * heap) unit :=
  BitStringAgg_Operation type bind_agg_data input.

(** [BitStringAggOperation::Assign], lines 340-351. *)
Definition BitStringAgg_Assign (input : string_t) : M (BitAggState * heap) unit :=
  if IsInlined input then modify_state (agg_set_value input)
  else
    v <- on_heap (copy_string input) ;;
    modify_state (agg_set_value v).

(** [BitStringAggOperation::Combine], lines 327-338: the source is read
    only, the store holds the target. *)
Definition BitStringAgg_Combine (source : BitAggState) : M (BitAggState * heap) unit :=
  if negb (agg_is_set source) then ret tt
  else
    target <- get_state ;;
    if negb (agg_is_set target) then
      BitStringAgg_Assign (agg_value source) ;;;
      modify_state (agg_set_is_set true)
    else
      v <- on_heap (Bitwise Z.lor (agg_value source) (agg_value target) (agg_value target)) ;;
      modify_state (agg_set_value v).

(** [BitStringAggOperation::Finalize], lines 353-360: [None] is NULL. *)
Definition BitStringAgg_Finalize : M (BitAggState * heap) (option (list Z)) :=
  state <- get_state ;;
  if negb (agg_is_set state) then ret None
  else data <- on_heap (read_bytes (agg_value state)) ;; ret (Some data).

(** [BitStringAggOperation::Destroy], lines 362-367. *)
Definition BitStringAgg_Destroy : M (BitAggState * heap) unit :=
  state <- get_state ;;
  if agg_is_set state && negb (IsInlined (agg_value state)) then
    match GetDataUnsafe (agg_value state) with
    | Some ptr => on_heap (delete_array ptr)
    | None => ret tt
    end
  else ret tt.

(** The aggregate executor on a plain vector of valid rows: [Initialize] on
    a state of the arena, then one [Operation] per row; an exception ends
    the run. *)
Fixpoint BitStringAgg_rows (type : LogicalTypeId) (bind_agg_data : BitstringAggBindData)
         (rows : list Z) : M (BitAggState * heap) unit :=
  match rows with
  | [] => ret tt
  | input :: rows' =>
      BitStringAgg_Operation type bind_agg_data input ;;;
      BitStringAgg_rows type bind_agg_data rows'
  end.

Definition bitstring_agg (type : LogicalTypeId) (bind_agg_data : BitstringAggBindData)
           (rows : list Z) : M (BitAggState * heap) (option (list Z)) :=
  BitStringAgg_Initialize ;;;
  BitStringAgg_rows type bind_agg_data rows ;;;
  BitStringAgg_Finalize.

(** The bytes of an empty bitmap of [bit_range] bits, what it is to be the
    bytes of such a bitmap, and the bytes that a [string_t] holds on a heap. *)
Definition empty_bitmap (bit_range : Z) : list Z :=
  <[0%nat := ComputePadding bit_range]> (replicate (Z.to_nat (bitmap_len bit_range)) 0).

Definition is_bitmap (bit_range : Z) (data : list Z) : Prop :=
  length data = Z.to_nat (bitmap_len bit_range) /\
  data !!! 0%nat = ComputePadding bit_range.

Definition holds (v : string_t) (h : heap) (data : list Z) : Prop :=
  match v with
  | Inlined d => d = data
  | Pointer ptr len => h !! ptr = Some data /\ length data = len
  end.

(** What holds of a state of the range bitmap after its first row: it is
    set, it mirrors the bind data, and bit [i] of its bitmap tells whether
    [min + i] was among the rows [seen]. *)
Definition folded (min max : Z) (seen : list Z) (s : BitAggState * heap) : Prop :=
  agg_is_set (fst s) = true /\ agg_min (fst s) = min /\ agg_max (fst s) = max /\
  exists data,
    holds (agg_value (fst s)) (snd s) data /\
    is_bitmap (max - min + 1) data /\
    forall i, 0 <= i < max - min + 1 -> (GetBit_bytes data i = true <-> min + i ∈ seen).

(** ** bitagg.cpp: binding, lines 374-406 *)

(** [NumericStatistics] with its two [Value]s, and [NodeStatistics]. *)
Record NumericStatistics := mkNumericStatistics {
  stats_min : option Z;
  stats_max : option Z
}.

Record NodeStatistics := mkNodeStatistics { has_max_cardinality : bool }.

(** The message of lines 388-389, its two literals joined. *)
Definition statistics_message : string :=
  "Could not retrieve required statistics. Alternatively, try by providing the statistics explicitly: BITSTRING_AGG(col, min, max) ".

(** [BitstringPropagateStats], lines 374-392: the store is the bind data;
    a null pointer is [None]. The function returns [nullptr] on every path
    that returns. *)
Definition BitstringPropagateStats (child_stats : option NumericStatistics)
           (node_stats : option NodeStatistics) : M BitstringAggBindData unit :=
  match child_stats, node_stats with
  | Some numeric_stats, Some node =>
      if has_max_cardinality node then
        if bool_decide (stats_min numeric_stats = None)
           || bool_decide (stats_max numeric_stats = None)
        then ret tt
        else put (mkBindData (stats_min numeric_stats) (stats_max numeric_stats))
      else
        throw (BinderException statistics_message)
  | _, _ => throw (BinderException statistics_message)
  end.

(** [BindBitstringAgg], lines 394-406: each argument is given by the value
    that [EvaluateScalar] returns for it. *)
Definition BindBitstringAgg (arguments : list (option Z)) : BitstringAggBindData :=
  match arguments with
  | [_; min; max] => mkBindData min max
  | _ => mkBindData None None
  end.



(** ** What the scalar aggregates compute, bit by bit *)

(** The operator of [Execute] on integers and on single bits, and bit [i] of
    the aggregate of a list of rows: all of them for [bit_and], one of them
    for [bit_or], an odd number of them for [bit_xor]. *)
Definition op_Z (op : OP) : Z -> Z -> Z :=
  match op with
  | BitAndOperation => Z.land
  | BitOrOperation => Z.lor
  | BitXorOperation => Z.lxor
  end.



(** ** The histogram of [ExtractCounts] *)

(** How many registers of [k] hold the value [v], and the sum of a
    histogram. *)
Definition registers_with (v : nat) (k : list Z) : nat :=
  length (filter (fun r => Z.to_nat r = v) k).

Definition sum_counts (c : list Z) : Z := foldr Z.add 0 c.

(** ** hyperloglog.cpp: batches and serialization *)

(** Modelled from the spec: [UnifiedVectorFormat] and the vector types
    (vector.hpp); section 6, column batch interface: a dense data array, a
    selection vector from logical to physical index, a validity mask, and a
    tag that tells a constant vector from the other layouts. *)
Inductive VectorType := CONSTANT_VECTOR | FLAT_VECTOR | DICTIONARY_VECTOR.

Record UnifiedVectorFormat := mkUnifiedVectorFormat {
  vec_sel : nat -> nat;
  vec_data : list Z;
  vec_validity : nat -> bool
}.

(** [HyperLogLog::Update(input, hash_vec, count)], lines 85-105: [idata] and
    [hdata] are the two vectors in unified format, [hash_vec_type] is
    [hash_vec.GetVectorType()]. *)
Definition Update_vectors (k : list Z) (idata hdata : UnifiedVectorFormat)
           (hash_vec_type : VectorType) (count : nat) : list Z :=
  match hash_vec_type with
  | CONSTANT_VECTOR =>
      if vec_validity idata 0%nat then InsertElement k (vec_data hdata !!! 0%nat) else k
  | _ =>
      fold_left (fun k i =>
                   if vec_validity idata (vec_sel idata i)
                   then InsertElement k (vec_data hdata !!! vec_sel hdata i)
                   else k)
                (seq 0 count) k
  end.

(** The hashes of the valid rows of a batch, in row order. *)
Definition valid_hashes (idata hdata : UnifiedVectorFormat) (count : nat) : list Z :=
  (fun i => vec_data hdata !!! vec_sel hdata i)
    <$> filter (fun i => vec_validity idata (vec_sel idata i) = true) (seq 0 count).






(** ** The bitstring family over a vector of rows *)





(** * Properties *)

(** ** Loops over [0 .. n) *)

Lemma fold_left_seq_ind {A} (f : A -> nat -> A) (P : nat -> A -> Prop) (n : nat) (a : A) :
  P 0%nat a ->
  (forall i acc, (i < n)%nat -> P i acc -> P (S i) (f acc i)) ->
  P n (fold_left f (seq 0 n) a).
Proof.
  induction n as [|n IH]; intros H0 Hstep; [exact H0|].
  rewrite seq_S, fold_left_app. cbn [fold_left Nat.add].
  apply Hstep; [lia|]. apply IH; [exact H0|].
  intros i acc Hi. apply Hstep. lia.
Qed.

Lemma list_eq_total (l1 l2 : list Z) :
  length l1 = length l2 ->
  (forall i, (i < length l1)%nat -> l1 !!! i = l2 !!! i) ->
  l1 = l2.
Proof.
  intros Hlen Hall. apply list_eq_same_length with (n := length l1); [done|done|].
  intros i x y Hi Hx Hy.
  specialize (Hall i Hi).
  rewrite (list_lookup_total_correct _ _ _ Hx) in Hall.
  rewrite (list_lookup_total_correct _ _ _ Hy) in Hall. done.
Qed.

(** ** The sketch: [Update], [InsertElement], [Merge] *)

Lemma length_Update (k : list Z) i v : length (Update k i v) = length k.
Proof. unfold Update. apply length_insert. Qed.

Lemma Update_lookup (k : list Z) i v j :
  Update k i v !!! j =
  if decide (i = j /\ (j < length k)%nat) then Z.max (k !!! j) v else k !!! j.
Proof.
  unfold Update. case_decide as H.
  - destruct H as [-> Hj]. by rewrite list_lookup_total_insert_eq.
  - destruct (decide (i = j)) as [->|Hne].
    + rewrite list_insert_ge; [done|lia].
    + by rewrite list_lookup_total_insert_ne.
Qed.

Lemma length_Merge (k other : list Z) : length (Merge k other) = length k.
Proof.
  unfold Merge.
  apply (fold_left_seq_ind _ (fun _ acc => length acc = length k)); [done|].
  intros i acc _ H. by rewrite length_Update.
Qed.

Lemma Merge_lookup (k other : list Z) j :
  Merge k other !!! j =
  if decide ((j < M_regs)%nat /\ (j < length k)%nat)
  then Z.max (k !!! j) (other !!! j) else k !!! j.
Proof.
  unfold Merge.
  refine (proj2 (fold_left_seq_ind _ (fun n acc =>
           length acc = length k /\
           acc !!! j = if decide ((j < n)%nat /\ (j < length k)%nat)
                       then Z.max (k !!! j) (other !!! j) else k !!! j) _ _ _ _)).
  - split; [done|]. case_decide; [lia|done].
  - intros i acc Hi [Hlen Hj]. split; [by rewrite length_Update|].
    rewrite Update_lookup, Hlen, Hj.
    destruct (decide (i = j)) as [->|Hne]; repeat case_decide; try lia; done.
Qed.

Lemma length_InsertElement (k : list Z) hash : length (InsertElement k hash) = length k.
Proof. apply length_Update. Qed.

Lemma length_sketch_fold (hashes k : list Z) :
  length (fold_left InsertElement hashes k) = length k.
Proof.
  revert k. induction hashes as [|h hs IH]; intros k; [done|].
  cbn. by rewrite IH, length_InsertElement.
Qed.

Lemma Update_nonneg (k : list Z) i v :
  Forall (fun r => 0 <= r) k -> Forall (fun r => 0 <= r) (Update k i v).
Proof.
  intros Hk. unfold Update. destruct (decide (i < length k)%nat) as [Hi|Hi].
  - apply Forall_insert; [done|].
    pose proof (Forall_lookup_total_1 _ _ _ Hk Hi) as H. cbn in H. lia.
  - rewrite list_insert_ge; [done|lia].
Qed.

Lemma sketch_fold_nonneg (hashes k : list Z) :
  Forall (fun r => 0 <= r) k ->
  Forall (fun r => 0 <= r) (fold_left InsertElement hashes k).
Proof.
  revert k. induction hashes as [|h hs IH]; intros k Hk; [done|].
  cbn. apply IH. by apply Update_nonneg.
Qed.

Lemma HyperLogLog_new_lookup j : (j < M_regs)%nat -> HyperLogLog_new !!! j = 0.
Proof. intros Hj. unfold HyperLogLog_new. by apply lookup_total_replicate_2. Qed.

Lemma Merge_InsertElement (a b : list Z) hash :
  length a = M_regs -> length b = M_regs ->
  Merge a (InsertElement b hash) = InsertElement (Merge a b) hash.
Proof.
  intros Ha Hb. apply list_eq_total.
  - by rewrite length_InsertElement, !length_Merge.
  - intros j _. unfold InsertElement.
    rewrite Merge_lookup, !Update_lookup, Merge_lookup, length_Merge, Ha, Hb.
    repeat case_decide; try done; lia.
Qed.

Lemma Merge_sketch_fold (a : list Z) (hashes b : list Z) :
  length a = M_regs -> length b = M_regs ->
  Merge a (fold_left InsertElement hashes b) = fold_left InsertElement hashes (Merge a b).
Proof.
  intros Ha. revert b. induction hashes as [|h hs IH]; intros b Hb; [done|].
  cbn. rewrite IH by (by rewrite length_InsertElement).
  by rewrite Merge_InsertElement.
Qed.

Lemma Merge_new (a : list Z) :
  length a = M_regs -> Forall (fun r => 0 <= r) a -> Merge a HyperLogLog_new = a.
Proof.
  intros Hlen Ha. apply list_eq_total; [apply length_Merge|].
  intros j Hj. rewrite length_Merge in Hj. rewrite Merge_lookup.
  case_decide; [|done]. rewrite HyperLogLog_new_lookup by lia.
  pose proof (Forall_lookup_total_1 _ _ _ Ha Hj) as H0. cbn in H0. lia.
Qed.

(** C4: after [A.Merge(B)] every register holds the maximum of the two
    registers it had in [A] and in [B], and merging the sketches of two
    streams gives, register for register, the sketch of both streams. *)
Theorem Merge_pointwise_max_and_union :
  (forall (a b : list Z) (i : nat),
      length a = M_regs -> (i < M_regs)%nat ->
      Merge a b !!! i = Z.max (a !!! i) (b !!! i)) /\
  (forall s1 s2 : list Z,
      Merge (sketch_of s1) (sketch_of s2) = sketch_of (s1 ++ s2)).
Proof.
  split.
  - intros a b i Ha Hi. rewrite Merge_lookup. case_decide; [done|lia].
  - intros s1 s2. unfold sketch_of at 2 3.
    assert (length (sketch_of s1) = M_regs) as Hlen.
    { unfold sketch_of, HyperLogLog_new.
      by rewrite length_sketch_fold, length_replicate. }
    rewrite fold_left_app, Merge_sketch_fold.
    + f_equal. apply Merge_new; [done|].
      apply sketch_fold_nonneg. by apply Forall_replicate.
    + done.
    + unfold HyperLogLog_new. by rewrite length_replicate.
Qed.

(** ** The scalar family: [bit_xor] on a constant vector *)

Lemma state_bits_pos type : 0 < state_bits type.
Proof. destruct type; cbn; lia. Qed.

Lemma state_cast_low type z :
  state_cast type z mod 2 ^ state_bits type = z mod 2 ^ state_bits type.
Proof.
  destruct type; cbn [state_cast state_bits]; try apply Zmod_mod.
  rewrite Zminus_mod_idemp_l. f_equal. lia.
Qed.

Lemma state_cast_of_low type z :
  state_cast type (z mod 2 ^ state_bits type) = state_cast type z.
Proof.
  destruct type; cbn [state_cast state_bits]; try apply Zmod_mod.
  by rewrite Zplus_mod_idemp_l.
Qed.

Lemma lxor_low w a b :
  0 <= w -> Z.lxor a b mod 2 ^ w = Z.lxor (a mod 2 ^ w) (b mod 2 ^ w).
Proof.
  intros Hw. apply Z.bits_inj'. intros n Hn.
  rewrite Z.lxor_spec. destruct (decide (n < w)) as [Hlt|Hge].
  - by rewrite !Z.mod_pow2_bits_low, Z.lxor_spec by done.
  - by rewrite !Z.mod_pow2_bits_high by lia.
Qed.

Lemma state_cast_lxor type a b :
  state_cast type (Z.lxor (state_cast type a) b) = state_cast type (Z.lxor a b).
Proof.
  pose proof (state_bits_pos type) as Hw.
  rewrite <- (state_cast_of_low type (Z.lxor (state_cast type a) b)).
  rewrite <- (state_cast_of_low type (Z.lxor a b)).
  rewrite !(lxor_low (state_bits type)) by lia.
  by rewrite state_cast_low.
Qed.

Lemma state_cast_idem type z : state_cast type (state_cast type z) = state_cast type z.
Proof.
  rewrite <- (state_cast_of_low type (state_cast type z)).
  by rewrite state_cast_low, state_cast_of_low.
Qed.

Lemma state_cast_lxor_twice type v x :
  state_cast type (Z.lxor (state_cast type (Z.lxor v x)) x) = state_cast type v.
Proof.
  rewrite state_cast_lxor, Z.lxor_assoc, Z.lxor_nilpotent, Z.lxor_0_r. done.
Qed.

Lemma BitXor_loop_rows type count state x :
  BitXor_loop type count state x =
  Operation_rows BitXorOperation type state (replicate count x).
Proof.
  revert state. induction count as [|n IH]; intros state; [done|].
  cbn. apply IH.
Qed.

Lemma BitXor_loop_set type count v x :
  BitXor_loop type count (mkBitState true v) x =
  mkBitState true (Nat.iter count (fun a => state_cast type (Z.lxor a x)) v).
Proof.
  revert v. induction count as [|n IH]; intros v; [done|].
  cbn [BitXor_loop]. unfold Operation, Execute. cbn [is_set value negb].
  rewrite IH. by rewrite Nat.iter_succ_r.
Qed.

Lemma xor_iter_parity type n v x :
  Nat.iter n (fun a => state_cast type (Z.lxor a x)) (state_cast type v) =
  if Nat.odd n then state_cast type (Z.lxor v x) else state_cast type v.
Proof.
  induction n as [|n IH]; [done|].
  rewrite Nat.odd_succ, <- Nat.negb_odd, Nat.iter_succ, IH.
  destruct (Nat.odd n); cbn.
  - apply state_cast_lxor_twice.
  - apply state_cast_lxor.
Qed.

(** C5: on a constant vector of [count >= 1] rows, [bit_xor] does what
    [count] successive calls of [Operation] do. An unset state ends set and
    holding the input when [count] is odd; a state that holds [v] ends
    holding [v] xor-ed with the input [count] times. In particular 5, three
    times, gives 5 from an unset state and 6 from a state that holds 3. *)
Theorem bit_xor_constant_broadcast (type : LogicalTypeId) (state : BitState Z)
        (x : Z) (count : nat) :
  (1 <= count)%nat ->
  ConstantOperation BitXorOperation type state x count =
    Operation_rows BitXorOperation type state (replicate count x)
  /\ (is_set state = false -> Nat.odd count = true ->
      ConstantOperation BitXorOperation type state x count =
        mkBitState true (state_cast type x))
  /\ (is_set state = true ->
      ConstantOperation BitXorOperation type state x count =
        mkBitState true
          (Nat.iter count (fun v => state_cast type (Z.lxor v x)) (value state)))
  /\ ConstantOperation BitXorOperation type (mkBitState false (value state)) 5 3 =
      mkBitState true 5
  /\ ConstantOperation BitXorOperation type (mkBitState true 3) 5 3 =
      mkBitState true 6.
Proof.
  intros Hcount. cbn [ConstantOperation]. repeat split.
  - apply BitXor_loop_rows.
  - intros Hunset Hodd. destruct count as [|n]; [lia|].
    destruct state as [b v]. cbn in Hunset. subst b.
    cbn [BitXor_loop]. unfold Operation, Assign. cbn [is_set value negb].
    rewrite BitXor_loop_set, xor_iter_parity.
    rewrite Nat.odd_succ, <- Nat.negb_odd in Hodd.
    destruct (Nat.odd n); [done|]. done.
  - intros Hset. destruct state as [b v]. cbn in Hset. subst b.
    apply BitXor_loop_set.
  - by destruct type.
  - by destruct type.
Qed.

(** ** The scalar family: [bit_and] and [bit_or] on a constant vector *)

Lemma land_low w a b :
  0 <= w -> Z.land a b mod 2 ^ w = Z.land (a mod 2 ^ w) (b mod 2 ^ w).
Proof.
  intros Hw. apply Z.bits_inj'. intros n Hn.
  rewrite Z.land_spec. destruct (decide (n < w)) as [Hlt|Hge].
  - by rewrite !Z.mod_pow2_bits_low, Z.land_spec by done.
  - by rewrite !Z.mod_pow2_bits_high by lia.
Qed.

Lemma lor_low w a b :
  0 <= w -> Z.lor a b mod 2 ^ w = Z.lor (a mod 2 ^ w) (b mod 2 ^ w).
Proof.
  intros Hw. apply Z.bits_inj'. intros n Hn.
  rewrite Z.lor_spec. destruct (decide (n < w)) as [Hlt|Hge].
  - by rewrite !Z.mod_pow2_bits_low, Z.lor_spec by done.
  - by rewrite !Z.mod_pow2_bits_high by lia.
Qed.

Lemma state_cast_land type a b :
  state_cast type (Z.land (state_cast type a) b) = state_cast type (Z.land a b).
Proof.
  pose proof (state_bits_pos type) as Hw.
  rewrite <- (state_cast_of_low type (Z.land (state_cast type a) b)).
  rewrite <- (state_cast_of_low type (Z.land a b)).
  rewrite !(land_low (state_bits type)) by lia.
  by rewrite state_cast_low.
Qed.

Lemma state_cast_lor type a b :
  state_cast type (Z.lor (state_cast type a) b) = state_cast type (Z.lor a b).
Proof.
  pose proof (state_bits_pos type) as Hw.
  rewrite <- (state_cast_of_low type (Z.lor (state_cast type a) b)).
  rewrite <- (state_cast_of_low type (Z.lor a b)).
  rewrite !(lor_low (state_bits type)) by lia.
  by rewrite state_cast_low.
Qed.

Lemma Operation_idempotent op type state x :
  op <> BitXorOperation ->
  Operation op type (Operation op type state x) x = Operation op type state x.
Proof.
  intros Hop. destruct state as [[] v]; unfold Operation, Execute, Assign;
    cbn [is_set value negb]; f_equal; destruct op; try done.
  - by rewrite state_cast_land, <- Z.land_assoc, Z.land_diag.
  - by rewrite state_cast_lor, <- Z.lor_assoc, Z.lor_diag.
  - by rewrite state_cast_land, Z.land_diag.
  - by rewrite state_cast_lor, Z.lor_diag.
Qed.

(** [bit_and] and [bit_or] on a constant vector of [count >= 1] rows: the
    single [Operation] of [ConstantOperation] gives the state that [count]
    successive calls of [Operation] give. *)
Theorem bit_and_or_constant_broadcast (op : OP) (type : LogicalTypeId)
        (state : BitState Z) (x : Z) (count : nat) :
  op <> BitXorOperation -> (1 <= count)%nat ->
  ConstantOperation op type state x count =
  Operation_rows op type state (replicate count x).
Proof.
  intros Hop Hcount.
  assert (ConstantOperation op type state x count = Operation op type state x) as ->
    by (by destruct op).
  destruct count as [|n]; [lia|]. clear Hcount. unfold Operation_rows.
  induction n as [|n IH]; [done|].
  rewrite IH. change (replicate (S (S n)) x) with (x :: replicate (S n) x).
  cbn [fold_left]. change (replicate (S n) x) with (x :: replicate n x).
  cbn [fold_left]. by rewrite Operation_idempotent.
Qed.

(** ** The V1 image: [FromNew] and [ToNew] *)




















(** ** Binding of the range bitmap *)


(** ** Buffers: [Combine], [Assign], [Destroy] *)

Lemma fresh_not_allocated (h : heap) : h !! fresh (dom h) = None.
Proof. apply not_elem_of_dom. apply is_fresh. Qed.

Lemma copy_string_pointer (h : heap) ptr len block :
  h !! ptr = Some block -> (INLINE_LENGTH < len)%nat ->
  copy_string (Pointer ptr len) h =
  (Ok (Pointer (fresh (dom h)) len), <[fresh (dom h) := take len block]> h).
Proof.
  intros Hptr Hlen. pose proof (fresh_not_allocated h) as Hfresh.
  assert (fresh (dom h) <> ptr) as Hne by congruence.
  unfold copy_string, bind, new_array, read_bytes, string_t_ctor. cbn.
  rewrite lookup_insert_ne, Hptr by done.
  rewrite insert_insert_eq. case_decide; [lia|done].
Qed.

(** C10: [Combine] of a set source whose buffer is on the heap into an unset
    target copies the buffer into a block that was not allocated before and
    gives it to the target; the source's block is untouched. [Destroy] of
    the source and then of the target both succeed, each releases its own
    block, and the heap is left as it was without the source's block. This
    holds for the bitstring family and for the range bitmap. *)
Theorem Combine_duplicates_buffer (h : heap) (ptr : positive) (len : nat) (block : list Z) :
  h !! ptr = Some block -> (INLINE_LENGTH < len)%nat ->
  exists new_ptr : positive,
    h !! new_ptr = None /\ new_ptr <> ptr /\
    let h' := <[new_ptr := take len block]> h in
    h' !! ptr = Some block /\
    (forall (op : StringOP) (source target : BitState string_t),
        is_set source = true -> value source = Pointer ptr len ->
        is_set target = false ->
        let target' := mkBitState true (Pointer new_ptr len) in
        BitString_Combine op source (target, h) = (Ok tt, (target', h')) /\
        BitString_Destroy (source, h') = (Ok tt, (source, delete ptr h')) /\
        BitString_Destroy (target', delete ptr h') = (Ok tt, (target', delete ptr h))) /\
    (forall source target : BitAggState,
        agg_is_set source = true -> agg_value source = Pointer ptr len ->
        agg_is_set target = false ->
        let target' :=
          mkBitAggState true (Pointer new_ptr len) (agg_min target) (agg_max target) in
        BitStringAgg_Combine source (target, h) = (Ok tt, (target', h')) /\
        BitStringAgg_Destroy (source, h') = (Ok tt, (source, delete ptr h')) /\
        BitStringAgg_Destroy (target', delete ptr h') = (Ok tt, (target', delete ptr h))).
Proof.
  intros Hptr Hlen. exists (fresh (dom h)).
  pose proof (fresh_not_allocated h) as Hfresh.
  assert (fresh (dom h) <> ptr) as Hne by congruence.
  assert (delete (fresh (dom h)) (delete ptr (<[fresh (dom h) := take len block]> h))
          = delete ptr h) as Hback.
  { rewrite delete_insert_ne by done. rewrite delete_insert_eq.
    apply delete_id. by rewrite lookup_delete_ne. }
  split; [done|]. split; [done|]. cbn zeta.
  split; [by rewrite lookup_insert_ne|].
  split.
  - intros op [? vs] [? vt]; cbn; intros -> -> ->. repeat split.
    + unfold BitString_Combine, BitString_Assign, bind, get_state, on_heap,
        modify_state. cbn -[copy_string].
      by rewrite (copy_string_pointer h ptr len block).
    + unfold BitString_Destroy, bind, get_state, on_heap, delete_array. cbn.
      by rewrite lookup_insert_ne, Hptr.
    + unfold BitString_Destroy, bind, get_state, on_heap, delete_array. cbn.
      rewrite lookup_delete_ne, lookup_insert_eq by done. by rewrite Hback.
  - intros [? vs ? ?] [? vt ? ?]; cbn; intros -> -> ->. repeat split.
    + unfold BitStringAgg_Combine, BitStringAgg_Assign, bind, get_state, on_heap,
        modify_state. cbn -[copy_string].
      by rewrite (copy_string_pointer h ptr len block).
    + unfold BitStringAgg_Destroy, bind, get_state, on_heap, delete_array. cbn.
      by rewrite lookup_insert_ne, Hptr.
    + unfold BitStringAgg_Destroy, bind, get_state, on_heap, delete_array. cbn.
      rewrite lookup_delete_ne, lookup_insert_eq by done. by rewrite Hback.
Qed.

(** ** The bytes of a bitmap *)

Lemma bitmap_len_padding (R : Z) :
  0 <= R -> 8 * (bitmap_len R - 1) = R + ComputePadding R /\ 0 <= ComputePadding R < 8.
Proof.
  intros HR. unfold bitmap_len, ComputePadding.
  destruct (Z.eqb_spec (R mod 8) 0) as [H0|H0]; cbn [negb]; clear - HR H0;
    Z.to_euclidean_division_equations; lia.
Qed.

Lemma is_bitmap_empty (R : Z) : 0 <= R -> is_bitmap R (empty_bitmap R).
Proof.
  intros HR. destruct (bitmap_len_padding R HR) as [Hlen Hpad].
  unfold is_bitmap, empty_bitmap. rewrite length_insert, length_replicate.
  split; [done|]. apply list_lookup_total_insert_eq.
  rewrite length_replicate. lia.
Qed.

Lemma BitLength_bitmap (R : Z) (data : list Z) :
  0 <= R -> is_bitmap R data -> BitLength data = R.
Proof.
  intros HR [Hlen Hhd]. destruct (bitmap_len_padding R HR) as [Hl Hpad].
  unfold BitLength. rewrite Hlen, Hhd. lia.
Qed.

Lemma bit_index_in_range (R n : Z) :
  0 <= n < R ->
  (0 < Z.to_nat ((n + ComputePadding R) / 8 + 1) < Z.to_nat (bitmap_len R))%nat /\
  0 <= 7 - (n + ComputePadding R) mod 8.
Proof.
  intros Hn. destruct (bitmap_len_padding R ltac:(lia)) as [Hl Hpad].
  clear - Hn Hl Hpad. Z.to_euclidean_division_equations. lia.
Qed.

Lemma GetBit_empty (R i : Z) : 0 <= i < R -> GetBit_bytes (empty_bitmap R) i = false.
Proof.
  intros Hi. destruct (is_bitmap_empty R ltac:(lia)) as [Hlen Hhd].
  destruct (bit_index_in_range R i Hi) as [Hidx Hsh].
  unfold GetBit_bytes. rewrite Hhd. unfold empty_bitmap.
  rewrite list_lookup_total_insert_ne by lia.
  rewrite lookup_total_replicate_2 by lia. apply Z.bits_0.
Qed.

Lemma SetBit_bytes_bitmap (R n : Z) (data : list Z) :
  is_bitmap R data -> 0 <= n < R ->
  exists data',
    SetBit_bytes data n 1 = Some data' /\ is_bitmap R data' /\
    forall i, 0 <= i < R -> GetBit_bytes data' i = (i =? n) || GetBit_bytes data i.
Proof.
  intros [Hlen Hhd] Hn.
  destruct (bit_index_in_range R n Hn) as [Hidx Hsh].
  unfold SetBit_bytes. rewrite Hhd, Hlen. case_decide; [|lia].
  cbn [Z.eqb]. eexists. split; [done|]. split.
  - split; [by rewrite length_insert|].
    rewrite list_lookup_total_insert_ne by lia. done.
  - intros i Hi. destruct (bit_index_in_range R i Hi) as [Hidx' Hsh'].
    unfold GetBit_bytes.
    rewrite (list_lookup_total_insert_ne data _ 0%nat), Hhd by lia.
    set (m := n + ComputePadding R) in *. set (m' := i + ComputePadding R) in *.
    destruct (decide (Z.to_nat (m / 8 + 1) = Z.to_nat (m' / 8 + 1))) as [Heq|Hne].
    + rewrite <- Heq, list_lookup_total_insert_eq by lia.
      rewrite Z.setbit_eqb by done. f_equal.
      assert (m / 8 = m' / 8) as Hdiv by lia.
      destruct (Z.eqb_spec (7 - m mod 8) (7 - m' mod 8)) as [He|He];
        destruct (Z.eqb_spec i n) as [Hin|Hin]; try done; exfalso.
      * apply Hin. subst m m'. clear - He Hdiv.
        Z.to_euclidean_division_equations. lia.
      * apply He. subst i. done.
    + rewrite list_lookup_total_insert_ne by done.
      destruct (Z.eqb_spec i n) as [->|Hin]; [done|done].
Qed.

(** ** Strings on the heap *)

Lemma read_bytes_holds v (h : heap) data :
  holds v h data -> read_bytes v h = (Ok data, h).
Proof.
  destruct v as [d|ptr len]; cbn; [by intros ->|].
  intros [-> <-]. by rewrite take_ge.
Qed.

Lemma write_bytes_holds v (h : heap) data data' :
  holds v h data -> length data' = length data ->
  exists v' h', write_bytes v data' h = (Ok v', h') /\ holds v' h' data'.
Proof.
  destruct v as [d|ptr len]; cbn.
  - intros -> _. by eexists _, _.
  - intros [Hptr <-] Hlen. rewrite Hptr. eexists _, _. split; [done|].
    cbn. rewrite drop_ge, app_nil_r by done. by rewrite lookup_insert_eq.
Qed.

Lemma SetBit_holds v (h : heap) data n data' :
  holds v h data -> SetBit_bytes data n 1 = Some data' ->
  length data' = length data ->
  exists v' h', SetBit v n 1 h = (Ok v', h') /\ holds v' h' data'.
Proof.
  intros Hv Hset Hlen. unfold SetBit, bind.
  rewrite (read_bytes_holds v h data Hv), Hset.
  by apply (write_bytes_holds v h data).
Qed.

(** ** Arithmetic of the range bitmap on small ranges *)

Lemma arith_signed_small {S} bits z (s : S) :
  32 <= bits -> 0 <= z <= 1000000000 ->
  arith (SignedArith bits) z s = (Ok z, s).
Proof.
  intros Hb Hz. unfold arith.
  assert (2 ^ 31 <= 2 ^ (bits - 1)) by (apply Z.pow_le_mono_r; lia).
  destruct (Z.leb_spec (- 2 ^ (bits - 1)) z); [|lia].
  destruct (Z.ltb_spec z (2 ^ (bits - 1))); [done|lia].
Qed.

Lemma arith_unsigned_small {S} bits z (s : S) :
  32 <= bits -> 0 <= z <= 1000000000 ->
  arith (UnsignedArith bits) z s = (Ok z, s).
Proof.
  intros Hb Hz. unfold arith, ret.
  assert (2 ^ 32 <= 2 ^ bits) by (apply Z.pow_le_mono_r; lia).
  rewrite Z.mod_small; [done|lia].
Qed.

Lemma arith_nonneg {S} type z (s : S) :
  0 <= z <= 1000000000 -> arith (arith_of type) z s = (Ok z, s).
Proof.
  intros Hz. destruct type; cbn [arith_of];
    (apply arith_signed_small || apply arith_unsigned_small); lia.
Qed.

Lemma hugeint_arith_small {S} z (s : S) :
  0 <= z <= 1000000000 -> hugeint_arith z s = (Ok z, s).
Proof.
  intros Hz. unfold hugeint_arith.
  destruct (Z.leb_spec (- 2 ^ 127) z); [|lia].
  destruct (Z.ltb_spec z (2 ^ 127)); [done|lia].
Qed.

Lemma Hugeint_TryCast_small z : 0 <= z <= 1000000000 -> Hugeint_TryCast z = Some z.
Proof.
  intros Hz. unfold Hugeint_TryCast.
  destruct (Z.leb_spec 0 z); [|lia]. destruct (Z.ltb_spec z (2 ^ 64)); [done|lia].
Qed.

Lemma GetRange_small {S} type min max (s : S) :
  min <= max -> max - min + 1 <= 1000000000 ->
  BitStringAgg_GetRange type min max s = (Ok (max - min + 1), s).
Proof.
  intros Hle HR. unfold BitStringAgg_GetRange.
  assert ((d <- arith (arith_of type) (max - min) ;;
           r <- arith (arith_of type) (d + 1) ;; ret (idx_t r)) s
          = (Ok (max - min + 1), s)) as H.
  { unfold bind. rewrite !arith_nonneg by lia.
    unfold ret, idx_t. by rewrite Z.mod_small by lia. }
  destruct type; try exact H.
  unfold bind. rewrite !hugeint_arith_small by lia.
  by rewrite Hugeint_TryCast_small by lia.
Qed.

(** ** The range bitmap: the first row and the rows after it *)

Lemma BitStringAgg_first_small type min max (st : BitAggState) (h : heap) :
  min <= max -> max - min + 1 <= 1000000000 ->
  let R := max - min + 1 in
  let len := Z.to_nat (bitmap_len R) in
  let ptr := fresh (dom h) in
  BitStringAgg_first type (mkBindData (Some min) (Some max)) (st, h) =
  (Ok tt,
   if decide (len <= INLINE_LENGTH)%nat
   then (mkBitAggState true (Inlined (empty_bitmap R)) min max,
         <[ptr := junk <$> seq 0 len]> h)
   else (mkBitAggState true (Pointer ptr len) min max, <[ptr := empty_bitmap R]> h)).
Proof.
  intros Hle HR. cbn zeta.
  destruct (bitmap_len_padding (max - min + 1) ltac:(lia)) as [Hlen Hpad].
  unfold BitStringAgg_first, bind at 1 2 3 4 5.
  cbn [GetValueUnsafe bind_min bind_max ret modify_state].
  rewrite GetRange_small by done.
  destruct (Z.ltb_spec 1000000000 (max - min + 1)) as [?|_]; [lia|].
  unfold uint32_t. rewrite (Z.mod_small (bitmap_len _)) by lia.
  unfold bind, on_heap, new_array, string_t_ctor, SetEmptyBitString, write_bytes,
    modify_state.
  rewrite lookup_insert_eq.
  case_decide as Hinl; cbn.
  - rewrite take_ge by (by rewrite length_fmap, length_seq).
    by rewrite length_fmap, length_seq.
  - rewrite lookup_insert_eq, insert_insert_eq.
    rewrite drop_ge, app_nil_r by (by rewrite length_fmap, length_seq). done.
Qed.

Lemma BitStringAgg_first_folded type min max (st : BitAggState) (h : heap) :
  min <= max -> max - min + 1 <= 1000000000 ->
  exists s', BitStringAgg_first type (mkBindData (Some min) (Some max)) (st, h) = (Ok tt, s')
             /\ folded min max [] s'.
Proof.
  intros Hle HR. rewrite BitStringAgg_first_small by done.
  pose proof (is_bitmap_empty (max - min + 1) ltac:(lia)) as Hbm.
  eexists. split; [done|].
  case_decide; (split; [done|]); (split; [done|]); (split; [done|]);
    exists (empty_bitmap (max - min + 1)); cbn [fst snd agg_value holds].
  - split; [done|]. split; [done|]. intros i Hi.
    rewrite GetBit_empty by done. split; [done|]. by intros ?%elem_of_nil.
  - split; [|split; [done|]].
    + rewrite lookup_insert_eq. split; [done|]. by destruct Hbm.
    + intros i Hi. rewrite GetBit_empty by done. split; [done|].
      by intros ?%elem_of_nil.
Qed.

Lemma BitStringAgg_Execute_folded type min max seen input (s : BitAggState * heap) :
  folded min max seen s -> min <= input <= max -> max - min + 1 <= 1000000000 ->
  exists s', BitStringAgg_Execute type input min s = (Ok tt, s')
             /\ folded min max (input :: seen) s'.
Proof.
  destruct s as [st h]. intros (Hset & Hmin & Hmax & data & Hholds & Hbm & Hbits) Hin HR.
  cbn [fst snd] in *.
  destruct (SetBit_bytes_bitmap (max - min + 1) (input - min) data Hbm ltac:(lia))
    as (data' & Hset_bytes & Hbm' & Hbits').
  destruct (SetBit_holds _ h data (input - min) data' Hholds Hset_bytes)
    as (v' & h' & HSetBit & Hholds').
  { destruct Hbm, Hbm'. congruence. }
  assert (BitStringAgg_SetBit (input - min) (st, h) = (Ok tt, (agg_set_value v' st, h')))
    as Hstep.
  { unfold BitStringAgg_SetBit, bind, get_state, on_heap, modify_state.
    by rewrite HSetBit. }
  exists (agg_set_value v' st, h'). split.
  - unfold BitStringAgg_Execute, bind. destruct type;
      rewrite ?arith_nonneg, ?hugeint_arith_small, ?Hugeint_TryCast_small by lia;
      unfold idx_t; rewrite ?Z.mod_small by lia; exact Hstep.
  - split; [done|]. split; [done|]. split; [done|].
    exists data'. cbn [fst snd agg_set_value agg_value].
    split; [done|]. split; [done|]. intros i Hi.
    rewrite Hbits' by done. rewrite elem_of_cons, <- Hbits by done.
    destruct (Z.eqb_spec i (input - min)) as [->|Hne]; cbn [orb].
    + split; [intros _; left; lia|done].
    + split; [by right|]. intros [?|?]; [lia|done].
Qed.

Lemma BitStringAgg_Operation_folded type min max seen input (s : BitAggState * heap) :
  folded min max seen s \/ (agg_is_set (fst s) = false /\ seen = []) ->
  min <= input <= max -> max - min + 1 <= 1000000000 ->
  exists s', BitStringAgg_Operation type (mkBindData (Some min) (Some max)) input s
             = (Ok tt, s')
             /\ folded min max (input :: seen) s'.
Proof.
  intros Hs Hin HR. destruct s as [st h].
  assert (exists s1, (state <- get_state ;;
                      if negb (agg_is_set state)
                      then BitStringAgg_first type (mkBindData (Some min) (Some max))
                      else ret tt) (st, h) = (Ok tt, s1) /\ folded min max seen s1)
    as (s1 & Hfirst & Hfolded).
  { unfold bind at 1, get_state. destruct Hs as [Hf|[Hunset ->]].
    - destruct Hf as (Hset & ?). cbn [fst] in Hset. rewrite Hset. cbn [negb].
      eexists. split; [done|]. by split.
    - cbn [fst] in Hunset. rewrite Hunset. cbn [negb].
      apply BitStringAgg_first_folded; lia. }
  destruct (BitStringAgg_Execute_folded type min max seen input s1 Hfolded Hin HR)
    as (s' & Hexec & Hfolded').
  exists s'. split; [|done].
  unfold BitStringAgg_Operation.
  change (bind get_state _ (st, h)) with
    (bind (state <- get_state ;;
           if negb (agg_is_set state)
           then BitStringAgg_first type (mkBindData (Some min) (Some max))
           else ret tt)
          (fun _ => state <- get_state ;;
                    if (agg_min state <=? input) && (input <=? agg_max state)
                    then bmin <- GetValueUnsafe (bind_min (mkBindData (Some min) (Some max))) ;;
                         BitStringAgg_Execute type input bmin
                    else throw (OutOfRangeException
                      "Value %s is outside of provided min and max range (%s <-> %s)"))
          (st, h)).
  unfold bind at 1. rewrite Hfirst.
  destruct s1 as [st1 h1]. destruct Hfolded as (_ & Hmin & Hmax & _).
  cbn [fst] in Hmin, Hmax.
  unfold bind at 1, get_state. rewrite Hmin, Hmax.
  destruct (Z.leb_spec min input); [|lia]. destruct (Z.leb_spec input max); [|lia].
  cbn [andb bind_min GetValueUnsafe]. unfold bind at 1, ret. exact Hexec.
Qed.



(** ** The range bitmap: errors on the first row *)

(** The first row lies outside [[min, max]] and the range is acceptable:
    [Operation] throws after it has set the state up. When the bitmap is
    longer than [INLINE_LENGTH], [Destroy] then gives the block back and the
    heap is as before; when it is not, the state holds the bytes inline, the
    block of line 276 is referenced by nothing and [Destroy] leaves it
    allocated. In both cases [Finalize] would emit the empty bitmap. *)
Lemma BitStringAgg_first_row_outside type min max input (st : BitAggState) (h : heap) :
  agg_is_set st = false ->
  min <= max -> max - min + 1 <= 1000000000 ->
  input < min \/ max < input ->
  let R := max - min + 1 in
  let len := Z.to_nat (bitmap_len R) in
  let ptr := fresh (dom h) in
  let s1 := if decide (len <= INLINE_LENGTH)%nat
            then (mkBitAggState true (Inlined (empty_bitmap R)) min max,
                  <[ptr := junk <$> seq 0 len]> h)
            else (mkBitAggState true (Pointer ptr len) min max,
                  <[ptr := empty_bitmap R]> h) in
  h !! ptr = None /\
  BitStringAgg_Operation type (mkBindData (Some min) (Some max)) input (st, h)
  = (Throw (OutOfRangeException
              "Value %s is outside of provided min and max range (%s <-> %s)"), s1) /\
  BitStringAgg_Finalize s1 = (Ok (Some (empty_bitmap R)), s1) /\
  (forall i, 0 <= i < R -> GetBit_bytes (empty_bitmap R) i = false) /\
  BitStringAgg_Destroy s1
  = (Ok tt, if decide (len <= INLINE_LENGTH)%nat then s1 else (fst s1, h)).
Proof.
  intros Hunset Hle HR Hout. cbn zeta.
  pose proof (fresh_not_allocated h) as Hfresh.
  split; [done|]. split; [|split; [|split]].
  - unfold BitStringAgg_Operation, bind at 1 2, get_state.
    rewrite Hunset. cbn [negb]. rewrite BitStringAgg_first_small by done.
    unfold bind, get_state.
    case_decide; cbn [agg_min agg_max];
      (destruct (Z.leb_spec min input); destruct (Z.leb_spec input max);
       try lia; done).
  - unfold BitStringAgg_Finalize, bind, get_state, on_heap.
    case_decide; cbn; [done|].
    rewrite lookup_insert_eq, take_ge; [done|].
    by destruct (is_bitmap_empty (max - min + 1) ltac:(lia)) as [-> _].
  - intros i Hi. by apply GetBit_empty.
  - unfold BitStringAgg_Destroy, bind, get_state, on_heap, delete_array.
    case_decide; cbn; [done|].
    rewrite lookup_insert_eq, delete_insert_eq. by rewrite delete_id.
Qed.

(** The range that [GetRange] computes is above the cap: [Operation] on an
    unset state throws; the state has [min] and [max] copied and stays
    unset, nothing is allocated. *)
Lemma BitStringAgg_range_above_cap type min max input bit_range
      (st : BitAggState) (h : heap) :
  agg_is_set st = false ->
  BitStringAgg_GetRange type min max (agg_set_max max (agg_set_min min st), h)
  = (Ok bit_range, (agg_set_max max (agg_set_min min st), h)) ->
  1000000000 < bit_range ->
  BitStringAgg_Operation type (mkBindData (Some min) (Some max)) input (st, h)
  = (Throw (OutOfRangeException
              "The range between min and max value is too large for bitstring aggregation"),
     (mkBitAggState false (agg_value st) min max, h)).
Proof.
  intros Hunset Hrange Hcap.
  unfold BitStringAgg_Operation, bind at 1 2, get_state.
  rewrite Hunset. cbn [negb].
  unfold BitStringAgg_first, bind at 1 2 3 4 5.
  cbn [GetValueUnsafe bind_min bind_max ret modify_state].
  rewrite Hrange. destruct (Z.ltb_spec 1000000000 bit_range); [|lia].
  unfold throw, agg_set_max, agg_set_min. cbn. by rewrite Hunset.
Qed.

(** Where [GetRange] computes [max - min + 1] without wrapping, [Operation]
    on an unset state throws exactly when the range is above the cap or the
    input lies outside [[min, max]]. *)
Lemma BitStringAgg_Operation_throws_iff type min max input (st : BitAggState) (h : heap) :
  agg_is_set st = false -> min <= max ->
  (forall s : BitAggState * heap,
      BitStringAgg_GetRange type min max s = (Ok (max - min + 1), s)) ->
  (exists e s', BitStringAgg_Operation type (mkBindData (Some min) (Some max)) input (st, h)
                = (Throw e, s'))
  <-> (1000000000 < max - min + 1 \/ input < min \/ max < input).
Proof.
  intros Hunset Hle Hrange.
  destruct (decide (1000000000 < max - min + 1)) as [Hcap|Hcap].
  - split; [by left|]. intros _. eexists _, _.
    by apply (BitStringAgg_range_above_cap type min max input (max - min + 1)).
  - destruct (decide (min <= input <= max)) as [Hin|Hout].
    + split; [|lia]. intros (e & s' & Hthrow).
      destruct (BitStringAgg_Operation_folded type min max [] input (st, h))
        as (s1 & Hok & _); [by right|done|lia|]. congruence.
    + split; [lia|]. intros _.
      destruct (BitStringAgg_first_row_outside type min max input st h)
        as (_ & Hthrow & _); [done|done|lia|lia|].
      by eexists _, _.
Qed.

(** The first row of a group lies outside [[min, max]] and the range is
    acceptable: [Operation] throws after the state is set, with [min] and
    [max] copied and the empty bitmap in place; [Finalize] on that state
    would emit the empty bitmap; [Destroy] gives the block back when the
    bitmap is longer than [INLINE_LENGTH] and leaves it allocated when it is
    not. *)
Theorem first_row_error_not_atomic type min max input (st : BitAggState) (h : heap) :
  agg_is_set st = false ->
  min <= max -> max - min + 1 <= 1000000000 ->
  input < min \/ max < input ->
  let R := max - min + 1 in
  let len := Z.to_nat (bitmap_len R) in
  let ptr := fresh (dom h) in
  let s1 := if decide (len <= INLINE_LENGTH)%nat
            then (mkBitAggState true (Inlined (empty_bitmap R)) min max,
                  <[ptr := junk <$> seq 0 len]> h)
            else (mkBitAggState true (Pointer ptr len) min max,
                  <[ptr := empty_bitmap R]> h) in
  h !! ptr = None /\
  BitStringAgg_Operation type (mkBindData (Some min) (Some max)) input (st, h)
  = (Throw (OutOfRangeException
              "Value %s is outside of provided min and max range (%s <-> %s)"), s1) /\
  BitStringAgg_Finalize s1 = (Ok (Some (empty_bitmap R)), s1) /\
  (forall i, 0 <= i < R -> GetBit_bytes (empty_bitmap R) i = false) /\
  BitStringAgg_Destroy s1
  = (Ok tt, if decide (len <= INLINE_LENGTH)%nat then s1 else (fst s1, h)).
Proof. apply BitStringAgg_first_row_outside. Qed.

(** ** The scalar family: the bits of the result, and [Combine] *)



Lemma Execute_op_Z op type state x :
  Execute op type state x =
  mkBitState (is_set state) (state_cast type (op_Z op (value state) x)).
Proof. by destruct op. Qed.

Lemma op_Z_comm op a b : op_Z op a b = op_Z op b a.
Proof. destruct op; cbn; [apply Z.land_comm|apply Z.lor_comm|apply Z.lxor_comm]. Qed.

Lemma op_Z_assoc op a b c : op_Z op (op_Z op a b) c = op_Z op a (op_Z op b c).
Proof.
  destruct op; cbn; [by rewrite Z.land_assoc|by rewrite Z.lor_assoc|apply Z.lxor_assoc].
Qed.

Lemma state_cast_op_l op type a b :
  state_cast type (op_Z op (state_cast type a) b) = state_cast type (op_Z op a b).
Proof.
  destruct op; cbn; [apply state_cast_land|apply state_cast_lor|apply state_cast_lxor].
Qed.

Lemma state_cast_op_r op type a b :
  state_cast type (op_Z op a (state_cast type b)) = state_cast type (op_Z op a b).
Proof. by rewrite op_Z_comm, state_cast_op_l, op_Z_comm. Qed.

Lemma Operation_rows_unset op type state x rows :
  is_set state = false ->
  Operation_rows op type state (x :: rows) =
  Operation_rows op type (mkBitState true (state_cast type x)) rows.
Proof.
  intros Hunset. unfold Operation_rows. cbn [fold_left].
  unfold Operation at 2. by rewrite Hunset.
Qed.

Lemma Operation_rows_set op type v rows :
  is_set (Operation_rows op type (mkBitState true v) rows) = true.
Proof.
  revert v. induction rows as [|x rows IH]; intros v; [done|].
  unfold Operation_rows in *. cbn [fold_left].
  unfold Operation at 2. cbn [is_set negb]. rewrite Execute_op_Z. apply IH.
Qed.

Lemma Operation_rows_app op type state rows1 rows2 :
  Operation_rows op type state (rows1 ++ rows2) =
  Operation_rows op type (Operation_rows op type state rows1) rows2.
Proof. unfold Operation_rows. apply fold_left_app. Qed.




Lemma Execute_rows op type (target : BitState Z) x rows :
  is_set target = true ->
  Execute op type target
          (value (Operation_rows op type (mkBitState true (state_cast type x)) rows))
  = Operation_rows op type target (x :: rows).
Proof.
  intros Hset. induction rows as [|y rows IH] using rev_ind.
  - cbn [Operation_rows fold_left value]. unfold Operation. rewrite Hset. cbn [negb].
    by rewrite !Execute_op_Z, state_cast_op_r.
  - rewrite app_comm_cons, !Operation_rows_app. rewrite <- IH.
    cbn [Operation_rows fold_left]. unfold Operation.
    rewrite Operation_rows_set. cbn [negb].
    rewrite !Execute_op_Z. cbn [is_set value]. rewrite Hset. cbn [negb].
    by rewrite state_cast_op_r, state_cast_op_l, op_Z_assoc.
Qed.

(** [Combine] of two partial aggregates, for the three operators and every
    integer type: the source built from [rows1] combined into the target
    built from [rows2] is the state that one aggregate over [rows2] followed
    by [rows1] ends in. An unset source leaves the target as it is, an unset
    target takes the source's value. *)
Theorem Combine_partial_aggregates (op : OP) (type : LogicalTypeId)
        (state1 state2 : BitState Z) (rows1 rows2 : list Z) :
  Combine op type (Operation_rows op type (Initialize state1) rows1)
                  (Operation_rows op type (Initialize state2) rows2)
  = Operation_rows op type (Initialize state2) (rows2 ++ rows1).
Proof.
  destruct rows1 as [|x rows1]; [by rewrite app_nil_r|].
  rewrite Operation_rows_app, (Operation_rows_unset op type (Initialize state1)) by done.
  pose proof (Operation_rows_set op type (state_cast type x) rows1) as Hsrc.
  unfold Combine. rewrite Hsrc. cbn [negb].
  destruct rows2 as [|y rows2].
  - change (Operation_rows op type (Initialize state2) []) with (Initialize state2).
    cbn [Initialize is_set negb].
    rewrite Operation_rows_unset by done. unfold Assign. cbn [value is_set].
    set (s := Operation_rows op type _ rows1) in *.
    assert (state_cast type (value s) = value s) as ->.
    { subst s. destruct rows1 as [|z rows1 _] using rev_ind.
      - cbn. apply state_cast_idem.
      - rewrite Operation_rows_app. cbn [Operation_rows fold_left].
        unfold Operation. rewrite Operation_rows_set. cbn [negb].
        rewrite Execute_op_Z. cbn [value]. apply state_cast_idem. }
    destruct s as [b v]. cbn in Hsrc. by subst b.
  - rewrite (Operation_rows_unset op type (Initialize state2)) by done.
    rewrite Operation_rows_set. cbn [negb].
    apply Execute_rows. apply Operation_rows_set.
Qed.

(** ** The sketch: [Merge] as a join, and the histogram *)

(** [Merge] on sketches of [M] registers is commutative, associative and
    idempotent, and no register of the receiver ever goes down. *)
Theorem Merge_join (a b c : list Z) :
  length a = M_regs -> length b = M_regs -> length c = M_regs ->
  Merge a b = Merge b a /\
  Merge (Merge a b) c = Merge a (Merge b c) /\
  Merge a a = a /\
  forall i, (i < M_regs)%nat -> a !!! i <= Merge a b !!! i.
Proof.
  intros Ha Hb Hc. repeat split.
  - apply list_eq_total; [by rewrite !length_Merge, Ha, Hb|].
    intros i Hi. rewrite length_Merge, Ha in Hi.
    rewrite !Merge_lookup, Ha, Hb. case_decide; lia.
  - apply list_eq_total; [by rewrite !length_Merge|].
    intros i Hi. rewrite !length_Merge, Ha in Hi.
    rewrite !Merge_lookup, !length_Merge, Ha, Hb.
    case_decide; lia.
  - apply list_eq_total; [by rewrite length_Merge|].
    intros i Hi. rewrite length_Merge, Ha in Hi.
    rewrite Merge_lookup. case_decide; lia.
  - intros i Hi. rewrite Merge_lookup. case_decide; lia.
Qed.

Lemma sum_counts_insert (c : list Z) (r : nat) (x : Z) :
  (r < length c)%nat -> sum_counts (<[r := x]> c) = sum_counts c - c !!! r + x.
Proof.
  revert r. induction c as [|y c IH]; intros r Hr; [cbn in Hr; lia|].
  cbn [length] in Hr. destruct r as [|r].
  - change (sum_counts (x :: c) = sum_counts (y :: c) - y + x).
    change (x + sum_counts c = y + sum_counts c - y + x). lia.
  - change (y + sum_counts (<[r := x]> c) = y + sum_counts c - c !!! r + x).
    rewrite IH by lia. lia.
Qed.

Lemma sum_counts_replicate n : sum_counts (replicate n 0) = 0.
Proof.
  induction n as [|n IH]; [done|].
  change (0 + sum_counts (replicate n 0) = 0). by rewrite IH.
Qed.

Lemma registers_with_snoc v (k : list Z) r :
  registers_with v (k ++ [r]) =
  (registers_with v k + if decide (Z.to_nat r = v) then 1 else 0)%nat.
Proof.
  unfold registers_with. rewrite filter_app, length_app.
  rewrite filter_cons, filter_nil. by case_decide.
Qed.

Lemma registers_with_le v (k : list Z) : (registers_with v k <= length k)%nat.
Proof. unfold registers_with. apply length_filter. Qed.

(** [ExtractCounts] into a zeroed array of [Q + 2] counters, for a sketch of
    [M] registers that all lie in [0 .. Q + 1]: counter [v] ends as the
    number of registers that hold [v], and the counters add up to [M]. *)
Theorem ExtractCounts_histogram (k : list Z) :
  length k = M_regs -> Z.of_nat M_regs < 2 ^ 32 ->
  Forall (fun r => 0 <= r <= Z.of_nat Q + 1) k ->
  let c := ExtractCounts k (replicate (Q + 2) 0) in
  length c = (Q + 2)%nat /\
  (forall v, (v < Q + 2)%nat -> c !!! v = Z.of_nat (registers_with v k)) /\
  sum_counts c = Z.of_nat M_regs.
Proof.
  intros Hlen HM Hk. cbn zeta. unfold ExtractCounts.
  enough (forall n, (n <= M_regs)%nat ->
            let c := fold_left (fun c i =>
                                  let r := Z.to_nat (k !!! i) in
                                  <[r := uint32_t (c !!! r + 1)]> c)
                               (seq 0 n) (replicate (Q + 2) 0) in
            length c = (Q + 2)%nat /\
            (forall v, (v < Q + 2)%nat ->
                       c !!! v = Z.of_nat (registers_with v (take n k))) /\
            sum_counts c = Z.of_nat n) as H.
  { specialize (H M_regs ltac:(lia)). cbn zeta in H.
    rewrite take_ge in H by lia. exact H. }
  induction n as [|n IH]; intros Hn; cbn zeta.
  - cbn [seq fold_left]. rewrite length_replicate, sum_counts_replicate.
    split; [done|]. split; [|done]. intros v Hv.
    by rewrite lookup_total_replicate_2.
  - destruct (IH ltac:(lia)) as (Hc & Hhist & Hsum). clear IH.
    rewrite seq_S, fold_left_app. cbn [fold_left Nat.add].
    set (c := fold_left _ (seq 0 n) _) in *.
    assert (k !! n = Some (k !!! n)) as Hkn
      by (apply list_lookup_lookup_total_lt; lia).
    pose proof (Forall_lookup_total_1 _ _ n Hk ltac:(lia)) as Hr. cbn in Hr.
    set (r := Z.to_nat (k !!! n)) in *.
    assert (r < Q + 2)%nat as Hrq by lia.
    rewrite (take_S_r _ _ _ Hkn).
    pose proof (registers_with_le r (take n k)) as Hle.
    rewrite length_take in Hle.
    assert (uint32_t (c !!! r + 1) = c !!! r + 1) as ->.
    { unfold uint32_t. rewrite Hhist by done. apply Z.mod_small. lia. }
    split; [by rewrite length_insert|]. split.
    + intros v Hv. rewrite registers_with_snoc. fold r.
      destruct (decide (r = v)) as [<-|Hne].
      * rewrite list_lookup_total_insert_eq by lia. rewrite Hhist by done.
        repeat case_decide; lia.
      * rewrite list_lookup_total_insert_ne by done. rewrite Hhist by done.
        repeat case_decide; lia.
    + rewrite sum_counts_insert by lia. lia.
Qed.

(** ** The V1 image: what [ToNew] and [FromNew] do to any image *)

Lemma ToNew_max_old_bound (hll : list Z) (i : nat) :
  0 <= ToNew_max_old hll i /\
  (forall j, (j < mult)%nat -> hll !!! (i * mult + j)%nat <= ToNew_max_old hll i) /\
  (ToNew_max_old hll i = 0 \/
   exists j, (j < mult)%nat /\ ToNew_max_old hll i = hll !!! (i * mult + j)%nat).
Proof.
  unfold ToNew_max_old, get_register.
  apply (fold_left_seq_ind _ (fun n m =>
           0 <= m /\
           (forall j, (j < n)%nat -> hll !!! (i * mult + j)%nat <= m) /\
           (m = 0 \/ exists j, (j < n)%nat /\ m = hll !!! (i * mult + j)%nat))
         mult 0).
  - split; [done|]. split; [intros; lia|by left].
  - intros n m Hn (Hpos & Hub & Hatt). split; [lia|]. split.
    + intros j Hj. destruct (decide (j = n)) as [->|Hne]; [lia|].
      specialize (Hub j ltac:(lia)). lia.
    + destruct (Z.max_spec m (hll !!! (i * mult + n)%nat)) as [[_ ->]|[_ ->]].
      * right. exists n. split; [lia|done].
      * destruct Hatt as [->|(j & Hj & ->)]; [by left|].
        right. exists j. split; [lia|done].
Qed.

Lemma ToNew_lookup (hll new_hll : list Z) (i : nat) :
  length (ToNew hll new_hll) = length new_hll /\
  ToNew hll new_hll !!! i =
  if decide ((i < M_regs)%nat /\ (i < length new_hll)%nat)
  then Z.max (new_hll !!! i) (ToNew_max_old hll i) else new_hll !!! i.
Proof.
  unfold ToNew.
  enough (forall n,
            length (fold_left (fun new_hll i => Update new_hll i (ToNew_max_old hll i))
                              (seq 0 n) new_hll) = length new_hll /\
            fold_left (fun new_hll i => Update new_hll i (ToNew_max_old hll i))
                      (seq 0 n) new_hll !!! i =
            if decide ((i < n)%nat /\ (i < length new_hll)%nat)
            then Z.max (new_hll !!! i) (ToNew_max_old hll i) else new_hll !!! i) as H
    by apply H.
  induction n as [|n [IHlen IH]].
  - split; [done|]. case_decide; [lia|done].
  - rewrite seq_S, fold_left_app. cbn [fold_left Nat.add].
    split; [by rewrite length_Update|].
    rewrite Update_lookup, IHlen, IH.
    destruct (decide (n = i)) as [->|Hne]; repeat case_decide; try lia; done.
Qed.

(** [ToNew] into any sketch of [M] registers, from any image: register [i]
    ends as the least value that is at least its old value, at least 0 and at
    least each of the [mult] registers of group [i] of the image; it is one
    of these values. *)
Theorem ToNew_group_maximum (hll new_hll : list Z) (i : nat) :
  length new_hll = M_regs -> (i < M_regs)%nat ->
  let r := ToNew hll new_hll !!! i in
  length (ToNew hll new_hll) = M_regs /\
  new_hll !!! i <= r /\ 0 <= r /\
  (forall j, (j < mult)%nat -> hll !!! (i * mult + j)%nat <= r) /\
  (r = new_hll !!! i \/ r = 0 \/
   exists j, (j < mult)%nat /\ r = hll !!! (i * mult + j)%nat).
Proof.
  intros Hlen Hi. cbn zeta.
  destruct (ToNew_lookup hll new_hll i) as [Hl ->].
  destruct (ToNew_max_old_bound hll i) as (Hpos & Hub & Hatt).
  case_decide; [|lia]. split; [lia|]. split; [lia|]. split; [lia|]. split.
  - intros j Hj. specialize (Hub j Hj). lia.
  - destruct (Z.max_spec (new_hll !!! i) (ToNew_max_old hll i)) as [[_ ->]|[_ ->]].
    + destruct Hatt as [->|Hatt]; [by right; left|by right; right].
    + by left.
Qed.






(** ** Batches and serialization of the sketch *)

Lemma InsertElement_idempotent (k : list Z) hash :
  InsertElement (InsertElement k hash) hash = InsertElement k hash.
Proof.
  unfold InsertElement. apply list_eq_total; [by rewrite !length_Update|].
  intros i _. rewrite !Update_lookup, length_Update. repeat case_decide; lia.
Qed.

Lemma Update_vectors_flat k idata hdata count :
  fold_left (fun k i =>
               if vec_validity idata (vec_sel idata i)
               then InsertElement k (vec_data hdata !!! vec_sel hdata i)
               else k)
            (seq 0 count) k
  = fold_left InsertElement (valid_hashes idata hdata count) k.
Proof.
  unfold valid_hashes. induction count as [|n IH]; [done|].
  rewrite seq_S, fold_left_app, filter_app, fmap_app, fold_left_app, <- IH.
  cbn [fold_left Nat.add]. rewrite filter_cons, filter_nil.
  destruct (vec_validity idata (vec_sel idata n)); case_decide; done.
Qed.

(** The batch update of the sketch. A vector that is not constant inserts
    the hashes of its valid rows, each looked up through the selection
    vector, in row order, and nothing else. For a constant hash vector of at
    least one row, whose selection vectors send every row to entry 0, the
    single insertion of lines 93-96 gives the registers that the loop over
    the rows would give. *)
Theorem Update_vectors_rows (k : list Z) (idata hdata : UnifiedVectorFormat)
        (count : nat) :
  Update_vectors k idata hdata FLAT_VECTOR count
  = fold_left InsertElement (valid_hashes idata hdata count) k /\
  ((1 <= count)%nat ->
   (forall i, (i < count)%nat -> vec_sel idata i = 0%nat /\ vec_sel hdata i = 0%nat) ->
   Update_vectors k idata hdata CONSTANT_VECTOR count
   = Update_vectors k idata hdata FLAT_VECTOR count).
Proof.
  split; [apply Update_vectors_flat|].
  intros Hcount Hsel. cbn [Update_vectors]. symmetry.
  transitivity (if decide (count = 0)%nat then k
                else if vec_validity idata 0%nat
                     then InsertElement k (vec_data hdata !!! 0%nat) else k);
    [|by case_decide; [lia|]].
  apply (fold_left_seq_ind _ (fun n acc =>
           acc = if decide (n = 0)%nat then k
                 else if vec_validity idata 0%nat
                      then InsertElement k (vec_data hdata !!! 0%nat) else k)
         count k); [done|].
  intros n acc Hn ->. destruct (Hsel n Hn) as [-> ->].
  case_decide; case_decide; try lia;
    destruct (vec_validity idata 0%nat); try done.
  apply InsertElement_idempotent.
Qed.



(** ** The range bitmap: a value that was seen before, and constant vectors *)

Lemma setbit_set (b s : Z) : 0 <= s -> Z.testbit b s = true -> Z.setbit b s = b.
Proof.
  intros Hs Hb. apply Z.bits_inj'. intros n Hn. rewrite Z.setbit_eqb by done.
  destruct (Z.eqb_spec s n) as [->|Hne]; [by rewrite Hb|done].
Qed.

Lemma SetBit_bytes_seen (R n : Z) (data : list Z) :
  is_bitmap R data -> 0 <= n < R -> GetBit_bytes data n = true ->
  SetBit_bytes data n 1 = Some data.
Proof.
  intros [Hlen Hhd] Hn Hbit.
  destruct (bit_index_in_range R n Hn) as [Hidx Hsh].
  unfold SetBit_bytes, GetBit_bytes in *. rewrite Hhd, Hlen in *.
  case_decide; [|lia]. cbn [Z.eqb]. f_equal.
  rewrite setbit_set by done. apply list_insert_id.
  apply list_lookup_lookup_total_lt. lia.
Qed.

Lemma write_bytes_same v (h : heap) data :
  holds v h data -> write_bytes v data h = (Ok v, h).
Proof.
  destruct v as [d|ptr len]; cbn; [by intros ->|].
  intros [Hptr <-]. rewrite Hptr, drop_ge, app_nil_r by done.
  by rewrite insert_id.
Qed.

Lemma BitStringAgg_Operation_seen type min max seen input (s : BitAggState * heap) :
  folded min max seen s -> input ∈ seen ->
  min <= input <= max -> max - min + 1 <= 1000000000 ->
  BitStringAgg_Operation type (mkBindData (Some min) (Some max)) input s = (Ok tt, s).
Proof.
  destruct s as [st h].
  intros (Hset & Hmin & Hmax & data & Hholds & Hbm & Hbits) Hseen Hin HR.
  cbn [fst snd] in *.
  assert (GetBit_bytes data (input - min) = true) as Hbit.
  { apply Hbits; [lia|]. by replace (min + (input - min)) with input by lia. }
  pose proof (SetBit_bytes_seen (max - min + 1) (input - min) data Hbm
                                ltac:(lia) Hbit) as Hsame.
  assert (BitStringAgg_SetBit (input - min) (st, h) = (Ok tt, (st, h))) as Hstep.
  { unfold BitStringAgg_SetBit, SetBit, bind, get_state, on_heap, modify_state.
    rewrite (read_bytes_holds _ _ _ Hholds), Hsame.
    rewrite (write_bytes_same _ _ _ Hholds). by destruct st. }
  assert (BitStringAgg_Execute type input min (st, h) = (Ok tt, (st, h))) as Hexec.
  { unfold BitStringAgg_Execute, bind. destruct type;
      rewrite ?arith_nonneg, ?hugeint_arith_small, ?Hugeint_TryCast_small by lia;
      unfold idx_t; rewrite ?Z.mod_small by lia; exact Hstep. }
  unfold BitStringAgg_Operation, bind at 1 2, get_state. rewrite Hset. cbn [negb ret].
  unfold bind at 1, get_state. rewrite Hmin, Hmax.
  destruct (Z.leb_spec min input); [|lia]. destruct (Z.leb_spec input max); [|lia].
  cbn [andb bind_min GetValueUnsafe]. unfold bind at 1, ret. exact Hexec.
Qed.

(** The range bitmap on a constant vector. [ConstantOperation] calls
    [Operation] once whatever [count] is; for a state that is unset or was
    folded from rows of [[min, max]], an input inside [[min, max]] and
    [count >= 1], the state and the heap it leaves are those that [count]
    successive calls of [Operation] leave: an [Operation] with a value that
    was seen before changes nothing. *)
Theorem BitStringAgg_constant_vector (type : LogicalTypeId) (min max input : Z)
        (seen : list Z) (count : nat) (s : BitAggState * heap) :
  folded min max seen s \/ (agg_is_set (fst s) = false /\ seen = []) ->
  min <= input <= max -> max - min + 1 <= 1000000000 -> (1 <= count)%nat ->
  exists s',
    BitStringAgg_ConstantOperation type (mkBindData (Some min) (Some max)) input count s
    = (Ok tt, s') /\
    BitStringAgg_rows type (mkBindData (Some min) (Some max)) (replicate count input) s
    = (Ok tt, s') /\
    BitStringAgg_Operation type (mkBindData (Some min) (Some max)) input s' = (Ok tt, s').
Proof.
  intros Hs Hin HR Hcount.
  destruct (BitStringAgg_Operation_folded type min max seen input s Hs Hin HR)
    as (s' & Hop & Hfolded).
  assert (BitStringAgg_Operation type (mkBindData (Some min) (Some max)) input s'
          = (Ok tt, s')) as Hagain.
  { apply (BitStringAgg_Operation_seen type min max (input :: seen)); try done.
    by left. }
  exists s'. split; [exact Hop|]. split; [|exact Hagain].
  destruct count as [|n]; [lia|]. clear Hcount.
  change (replicate (S n) input) with (input :: replicate n input).
  cbn [BitStringAgg_rows]. unfold bind at 1. rewrite Hop.
  induction n as [|n IH]; [done|].
  change (replicate (S n) input) with (input :: replicate n input).
  cbn [BitStringAgg_rows]. unfold bind at 1. by rewrite Hagain.
Qed.

(** ** The range bitmap: [Combine] *)

Lemma Bitwise_bytes_lookup (f : Z -> Z -> Z) (l r : list Z) (i : nat) :
  length l = length r -> (0 < i < length l)%nat ->
  length (Bitwise_bytes f l r) = length l /\
  Bitwise_bytes f l r !!! 0%nat = l !!! 0%nat /\
  Bitwise_bytes f l r !!! i = f (l !!! i) (r !!! i).
Proof.
  intros Hlen Hi. destruct l as [|l0 l], r as [|r0 r]; cbn in *; try lia.
  rewrite length_zip_with. split; [lia|]. split; [done|].
  destruct i as [|i]; [lia|].
  change (zip_with f l r !!! i = f (l !!! i) (r !!! i)).
  assert (i < length l)%nat as Hil by lia.
  destruct (lookup_lt_is_Some_2 l i Hil) as [x Hx].
  destruct (lookup_lt_is_Some_2 r i ltac:(lia)) as [y Hy].
  rewrite (list_lookup_total_correct l i x Hx), (list_lookup_total_correct r i y Hy).
  apply list_lookup_total_correct. by rewrite lookup_zip_with, Hx, Hy.
Qed.

Lemma Bitwise_bytes_bitmap (R : Z) (l r : list Z) :
  1 <= R -> is_bitmap R l -> is_bitmap R r ->
  is_bitmap R (Bitwise_bytes Z.lor l r) /\
  forall i, 0 <= i < R ->
            GetBit_bytes (Bitwise_bytes Z.lor l r) i = GetBit_bytes l i || GetBit_bytes r i.
Proof.
  intros HR [Hl Hlh] [Hr Hrh].
  destruct (bit_index_in_range R 0 ltac:(lia)) as [Hidx0 _].
  destruct (Bitwise_bytes_lookup Z.lor l r _ ltac:(congruence)
              ltac:(rewrite Hl; exact Hidx0)) as (Hlen & Hhd & _).
  split; [split; congruence|].
  intros i Hi. destruct (bit_index_in_range R i Hi) as [Hidx _].
  destruct (Bitwise_bytes_lookup Z.lor l r _ ltac:(congruence)
              ltac:(rewrite Hl; exact Hidx)) as (_ & _ & Hat).
  unfold GetBit_bytes. rewrite Hhd, Hlh, Hrh, Hat. apply Z.lor_spec.
Qed.

Lemma copy_string_holds (h : heap) ptr len data :
  holds (Pointer ptr len) h data ->
  exists v' h', copy_string (Pointer ptr len) h = (Ok v', h') /\ holds v' h' data.
Proof.
  intros [Hptr Hlen]. pose proof (fresh_not_allocated h) as Hfresh.
  assert (fresh (dom h) <> ptr) as Hne by congruence.
  unfold copy_string, bind, new_array, read_bytes, string_t_ctor. cbn.
  rewrite lookup_insert_ne, Hptr by done. rewrite insert_insert_eq, lookup_insert_eq.
  rewrite !(take_ge data len) by lia.
  case_decide; eexists _, _; (split; [done|]); cbn; [done|].
  by rewrite lookup_insert_eq.
Qed.

(** [Combine] of the range bitmap, for a source folded from the rows
    [seen1] and a target that is unset or folded from the rows [seen2], both
    over the same [[min, max]]: it succeeds, and [Finalize] on the target
    then emits a bitmap of [max - min + 1] bits whose bit [i] is set if and
    only if [min + i] is among the rows of the source or of the target. The
    fields [min] and [max] of the target are not written, also when the
    target was unset. *)
Theorem BitStringAgg_Combine_union (min max : Z) (seen1 seen2 : list Z)
        (source target : BitAggState) (h : heap) :
  min <= max ->
  folded min max seen1 (source, h) ->
  folded min max seen2 (target, h) \/ (agg_is_set target = false /\ seen2 = []) ->
  exists s' data,
    BitStringAgg_Combine source (target, h) = (Ok tt, s') /\
    BitStringAgg_Finalize s' = (Ok (Some data), s') /\
    BitLength data = max - min + 1 /\
    (forall i, 0 <= i < max - min + 1 ->
               (GetBit_bytes data i = true <-> min + i ∈ seen1 \/ min + i ∈ seen2)) /\
    agg_min (fst s') = agg_min target /\ agg_max (fst s') = agg_max target.
Proof.
  intros Hle (Hset1 & _ & _ & data1 & Hholds1 & Hbm1 & Hbits1) Htarget.
  cbn [fst snd] in *.
  assert (forall v' h' data (st' : BitAggState),
            agg_is_set st' = true -> agg_value st' = v' -> holds v' h' data ->
            BitStringAgg_Finalize (st', h') = (Ok (Some data), (st', h'))) as Hfin.
  { intros v' h' data st' Hs <- Hh.
    unfold BitStringAgg_Finalize, bind, get_state, on_heap. rewrite Hs. cbn [negb].
    by rewrite (read_bytes_holds _ _ _ Hh). }
  unfold BitStringAgg_Combine. rewrite Hset1. cbn [negb].
  unfold bind at 1, get_state.
  destruct Htarget as [(Hset2 & _ & _ & data2 & Hholds2 & Hbm2 & Hbits2)|[Hunset ->]];
    cbn [fst snd] in *.
  - rewrite Hset2. cbn [negb].
    destruct (Bitwise_bytes_bitmap (max - min + 1) data1 data2 ltac:(lia) Hbm1 Hbm2)
      as [Hbm Hbits].
    assert (length data1 = length data2) as Hlen by (destruct Hbm1, Hbm2; congruence).
    assert (GetSize (agg_value target) = length data1) as Hsize.
    { destruct (agg_value target); cbn in *; [by subst|]. destruct Hholds2. congruence. }
    destruct (write_bytes_holds _ h data2 (Bitwise_bytes Z.lor data1 data2) Hholds2)
      as (v' & h' & Hwrite & Hholds').
    { destruct Hbm, Hbm2. congruence. }
    exists (agg_set_value v' target, h'), (Bitwise_bytes Z.lor data1 data2).
    split; [|split; [|split; [|split]]].
    + unfold on_heap, Bitwise, modify_state, bind.
      rewrite (read_bytes_holds _ _ _ Hholds1). cbn.
      rewrite (read_bytes_holds _ _ _ Hholds2). cbn.
      case_decide as Hd; [|destruct Hd; done]. by rewrite Hwrite.
    + by apply (Hfin v' h').
    + apply BitLength_bitmap; [lia|done].
    + intros i Hi. rewrite Hbits by done. rewrite orb_true_iff.
      by rewrite Hbits1, Hbits2 by done.
    + done.
  - rewrite Hunset. cbn [negb].
    assert (exists v' h',
               BitStringAgg_Assign (agg_value source) (target, h)
               = (Ok tt, (agg_set_value v' target, h')) /\ holds v' h' data1)
      as (v' & h' & Hassign & Hholds').
    { unfold BitStringAgg_Assign. destruct (agg_value source) as [d|ptr len] eqn:Hv;
        cbn [IsInlined].
      - exists (Inlined d), h. split; [done|]. exact Hholds1.
      - destruct (copy_string_holds h ptr len data1 Hholds1) as (v' & h' & Hcopy & Hh).
        exists v', h'. split; [|done].
        unfold bind, on_heap, modify_state. by rewrite Hcopy. }
    exists (agg_set_is_set true (agg_set_value v' target), h'), data1.
    split; [|split; [|split; [|split]]].
    + unfold bind. by rewrite Hassign.
    + by apply (Hfin v' h').
    + apply BitLength_bitmap; [lia|done].
    + intros i Hi. rewrite Hbits1 by done. split; [by left|].
      intros [?|Hnil]; [done|]. by apply elem_of_nil in Hnil.
    + done.
Qed.

(** ** The bitstring family: the fold over the rows, and its buffer *)








(** ** The bitstring family: [Combine] of two partial aggregates *)







(** ** Binding: statistics with a NULL bound *)

(** The one-argument form of [bitstring_agg] with column statistics whose
    [min] or [max] is NULL: [BindBitstringAgg] leaves both bounds of the bind
    data NULL, [BitstringPropagateStats] returns without an exception and
    without writing them, and the first [Operation] on an unset state then
    reads the NULL [min] with [GetValueUnsafe] (line 266): no exception is
    thrown on the way, and the state and the heap are untouched up to that
    read. *)
Theorem null_statistics_reach_Operation (type : LogicalTypeId) (arguments : list (option Z))
        (numeric_stats : NumericStatistics) (node : NodeStatistics) (input : Z)
        (st : BitAggState) (h : heap) :
  length arguments <> 3%nat ->
  has_max_cardinality node = true ->
  stats_min numeric_stats = None \/ stats_max numeric_stats = None ->
  agg_is_set st = false ->
  exists bind_data,
    BitstringPropagateStats (Some numeric_stats) (Some node) (BindBitstringAgg arguments)
    = (Ok tt, bind_data) /\
    bind_data = mkBindData None None /\
    BitStringAgg_Operation type bind_data input (st, h) = (Undefined NullValueRead, (st, h)).
Proof.
  intros Hargs Hcard Hnull Hunset.
  assert (BindBitstringAgg arguments = mkBindData None None) as ->.
  { destruct arguments as [|a [|b [|c [|e rest]]]]; cbn in *; try done. }
  exists (mkBindData None None). split; [|split; [done|]].
  - unfold BitstringPropagateStats. rewrite Hcard.
    destruct Hnull as [-> | ->]; cbn; [done|].
    by rewrite orb_true_r.
  - unfold BitStringAgg_Operation, bind at 1, get_state. rewrite Hunset. by cbn.
Qed.

End Embedding.

Arguments Ok {A} a.
Arguments Throw {A} e.
Arguments Undefined {A} u.
Arguments mkBitState {T} is_set value.
Arguments is_set {T} b.
Arguments value {T} b.

(** * Instances

    The constants of the headers as upstream DuckDB has them: [M = 64],
    [Q = 58], 4096 registers in the V1 image, inline strings of at most 12
    bytes. Fresh blocks hold the byte 205. Where a statement needs the three
    [double] functions, it is either stated for all of them or instantiated
    with integer stand-ins: the number of non-empty registers as the count,
    and [max < 2 * min] as the quotient test. *)

(** C4 at a sketch of four registers. *)
Lemma Merge_pointwise_max_and_union_witness :
  Merge 4 [1; 0; 3; 2] [0; 5; 1; 2] !!! 1%nat = 5 /\
  Merge 4 (sketch_of 4 62 [5; 9]) (sketch_of 4 62 [6]) = sketch_of 4 62 [5; 9; 6].
Proof.
  split.
  - apply (proj1 (Merge_pointwise_max_and_union 4 62) [1; 0; 3; 2] [0; 5; 1; 2] 1%nat).
    + reflexivity.
    + lia.
  - apply (proj2 (Merge_pointwise_max_and_union 4 62) [5; 9] [6]).
Defined.

(** C5 at the scenario of the spec: 5, three times, into an unset state. *)
Lemma bit_xor_constant_broadcast_witness :
  (1 <= 3)%nat /\
  ConstantOperation BitXorOperation INTEGER (mkBitState false 0) 5 3 =
  Operation_rows BitXorOperation INTEGER (mkBitState false 0) [5; 5; 5].
Proof.
  split; [lia|].
  apply (bit_xor_constant_broadcast INTEGER (mkBitState false 0) 5 3). lia.
Defined.






(** C10 at a source bitmap of 16 bytes in the block at address 5. *)
Lemma Combine_duplicates_buffer_witness :
  exists new_ptr : positive,
    new_ptr <> 5%positive /\
    BitStringAgg_Combine 12 (fun _ => 205)
      (mkBitAggState true (Pointer 5 16) 0 120)
      (mkBitAggState false (Inlined []) 0 0, {[ 5%positive := replicate 16 7 ]})
    = (Ok tt, (mkBitAggState true (Pointer new_ptr 16) 0 0,
               <[new_ptr := replicate 16 7]> {[ 5%positive := replicate 16 7 ]})).
Proof.
  destruct (Combine_duplicates_buffer 12 (fun _ => 205)
              {[ 5%positive := replicate 16 7 ]} 5%positive 16 (replicate 16 7))
    as (new_ptr & _ & Hne & _ & _ & Hagg).
  - reflexivity.
  - lia.
  - exists new_ptr. split; [exact Hne|].
    apply (Hagg (mkBitAggState true (Pointer 5 16) 0 120)
                (mkBitAggState false (Inlined []) 0 0)); reflexivity.
Defined.


(** The same scenario, evaluated: four bits 1011 behind four padding bits. *)
Example bitstring_agg_10_12_13 :
  fst (bitstring_agg 12 (fun _ => 205) INTEGER (mkBindData (Some 10) (Some 13))
                     [10; 12; 13] (mkBitAggState false (Inlined []) 0 0, ∅))
  = Ok (Some [4; 11]).
Proof. vm_compute. reflexivity. Qed.


(** C9 at [bitstring_agg(x, 10, 13)] with 14 as the first row: [Operation]
    throws with the state set up; the two bytes of the bitmap are inline, so
    the block of line 276, at address 1, is referenced by nothing. [Destroy]
    leaves it allocated; [Finalize] would emit four zero bits. *)
Lemma first_row_outside_leaks_block :
  let st1 := mkBitAggState true (Inlined [4; 0]) 10 13 in
  let h1 : gmap positive (list Z) := {[ 1%positive := [205; 205] ]} in
  BitStringAgg_Operation 12 (fun _ => 205) INTEGER (mkBindData (Some 10) (Some 13)) 14
                         (mkBitAggState false (Inlined []) 0 0, ∅)
  = (Throw (OutOfRangeException
              "Value %s is outside of provided min and max range (%s <-> %s)"),
     (st1, h1)) /\
  BitStringAgg_Destroy (st1, h1) = (Ok tt, (st1, h1)) /\
  h1 !! 1%positive = Some [205; 205] /\
  BitStringAgg_Finalize (st1, h1) = (Ok (Some [4; 0]), (st1, h1)).
Proof. vm_compute. repeat split. Qed.

(** C6 at [bitstring_agg(x, 0, 4294967295)] over UINTEGER with 7 as the
    first row: the range of 2^32 bits wraps to 0 in [GetRange], passes the
    cap, and [Execute] sets a bit past the end of a bitmap of one byte. No
    exception is thrown. *)
Lemma full_uinteger_range_passes_cap :
  BitStringAgg_GetRange UINTEGER 0 4294967295 tt = (Ok 0, tt) /\
  BitStringAgg_Operation 12 (fun _ => 205) UINTEGER
                         (mkBindData (Some 0) (Some 4294967295)) 7
                         (mkBitAggState false (Inlined []) 0 0, ∅)
  = (Undefined OutOfBoundsWrite,
     (mkBitAggState true (Inlined [0]) 0 4294967295, {[ 1%positive := [205] ]})).
Proof. vm_compute. repeat split. Qed.

(** [bit_and] of 14, three times, into a state that holds 11. *)
Lemma bit_and_or_constant_broadcast_witness :
  (1 <= 3)%nat /\
  ConstantOperation BitAndOperation UTINYINT (mkBitState true 11) 14 3 =
  Operation_rows BitAndOperation UTINYINT (mkBitState true 11) [14; 14; 14].
Proof.
  split; [lia|].
  apply (bit_and_or_constant_broadcast BitAndOperation UTINYINT (mkBitState true 11) 14 3).
  - discriminate.
  - lia.
Defined.

(** [bitstring_agg(x, 0, 200)] with 201 as the first row: the bitmap has 27
    bytes and lives in the block at address 1; [Destroy] gives it back. *)
Lemma first_row_error_not_atomic_witness :
  BitStringAgg_Operation 12 (fun _ => 205) INTEGER (mkBindData (Some 0) (Some 200)) 201
                         (mkBitAggState false (Inlined []) 0 0, ∅)
  = (Throw (OutOfRangeException
              "Value %s is outside of provided min and max range (%s <-> %s)"),
     (mkBitAggState true (Pointer 1 27) 0 200, {[ 1%positive := empty_bitmap 201 ]})) /\
  BitStringAgg_Destroy
    (mkBitAggState true (Pointer 1 27) 0 200, {[ 1%positive := empty_bitmap 201 ]})
  = (Ok tt, (mkBitAggState true (Pointer 1 27) 0 200, ∅)).
Proof.
  destruct (first_row_error_not_atomic 12 (fun _ => 205) INTEGER 0 200 201
              (mkBitAggState false (Inlined []) 0 0) ∅)
    as (_ & Hthrow & _ & _ & Hdestroy).
  - reflexivity.
  - lia.
  - lia.
  - right. lia.
  - split; [exact Hthrow | exact Hdestroy].
Defined.

(** [bitstring_agg(x, 10, 13)] on a first row: 14 is refused, 12 is not. *)
Lemma BitStringAgg_Operation_throws_iff_witness :
  (exists e s',
      BitStringAgg_Operation 12 (fun _ => 205) INTEGER (mkBindData (Some 10) (Some 13)) 14
                             (mkBitAggState false (Inlined []) 0 0, ∅)
      = (Throw e, s')) /\
  ~ (exists e s',
        BitStringAgg_Operation 12 (fun _ => 205) INTEGER (mkBindData (Some 10) (Some 13)) 12
                               (mkBitAggState false (Inlined []) 0 0, ∅)
        = (Throw e, s')).
Proof.
  split.
  - apply (BitStringAgg_Operation_throws_iff 12 (fun _ => 205) INTEGER 10 13 14
             (mkBitAggState false (Inlined []) 0 0) ∅).
    + reflexivity.
    + lia.
    + intros s. reflexivity.
    + right. right. lia.
  - intros H.
    apply (BitStringAgg_Operation_throws_iff 12 (fun _ => 205) INTEGER 10 13 12
             (mkBitAggState false (Inlined []) 0 0) ∅) in H.
    + lia.
    + reflexivity.
    + lia.
    + intros s. reflexivity.
Defined.


(** [Merge] as a join, at sketches of four registers. *)
Lemma Merge_join_witness :
  Merge 4 [1; 0; 3; 2] [0; 5; 1; 2] = Merge 4 [0; 5; 1; 2] [1; 0; 3; 2] /\
  Merge 4 [1; 0; 3; 2] [1; 0; 3; 2] = [1; 0; 3; 2].
Proof.
  destruct (Merge_join 4 [1; 0; 3; 2] [0; 5; 1; 2] [1; 0; 3; 2] eq_refl eq_refl eq_refl)
    as (Hcomm & _ & Hidem & _).
  split; [exact Hcomm|exact Hidem].
Defined.

(** The histogram of a sketch of four registers with [Q = 2]. *)
Lemma ExtractCounts_histogram_witness :
  length (ExtractCounts 4 [1; 0; 3; 1] (replicate (2 + 2) 0)) = 4%nat /\
  ExtractCounts 4 [1; 0; 3; 1] (replicate (2 + 2) 0) !!! 1%nat = 2.
Proof.
  destruct (ExtractCounts_histogram 4 2 [1; 0; 3; 1]) as (Hlen & Hat & _).
  - reflexivity.
  - vm_compute. reflexivity.
  - repeat constructor; lia.
  - split; [exact Hlen|]. apply (Hat 1%nat). lia.
Defined.

(** [ToNew] at a V1 image of four registers and a sketch of two. *)
Lemma ToNew_group_maximum_witness :
  length (ToNew 2 4 [1; 4; 0; 2] [0; 0]) = 2%nat /\
  [1; 4; 0; 2] !!! 1%nat <= ToNew 2 4 [1; 4; 0; 2] [0; 0] !!! 0%nat.
Proof.
  destruct (ToNew_group_maximum 2 4 [1; 4; 0; 2] [0; 0] 0) as (Hlen & _ & _ & Hub & _).
  - reflexivity.
  - lia.
  - split; [exact Hlen|]. apply (Hub 1%nat). vm_compute. lia.
Defined.


(** A constant hash vector of three rows, all valid. *)
Lemma Update_vectors_rows_witness :
  Update_vectors 4 62 (HyperLogLog_new 4)
                 (mkUnifiedVectorFormat (fun _ => 0%nat) [7] (fun _ => true))
                 (mkUnifiedVectorFormat (fun _ => 0%nat) [5] (fun _ => true))
                 CONSTANT_VECTOR 3
  = Update_vectors 4 62 (HyperLogLog_new 4)
                   (mkUnifiedVectorFormat (fun _ => 0%nat) [7] (fun _ => true))
                   (mkUnifiedVectorFormat (fun _ => 0%nat) [5] (fun _ => true))
                   FLAT_VECTOR 3.
Proof.
  apply (proj2 (Update_vectors_rows 4 62 (HyperLogLog_new 4)
                  (mkUnifiedVectorFormat (fun _ => 0%nat) [7] (fun _ => true))
                  (mkUnifiedVectorFormat (fun _ => 0%nat) [5] (fun _ => true)) 3)).
  - lia.
  - intros i _. split; reflexivity.
Defined.


(** A constant vector of three rows, all 11, into an unset state of
    [bitstring_agg(x, 10, 13)]. *)
Lemma BitStringAgg_constant_vector_witness :
  exists s',
    BitStringAgg_ConstantOperation 12 (fun _ => 205) INTEGER (mkBindData (Some 10) (Some 13))
      11 3 (mkBitAggState false (Inlined []) 0 0, ∅) = (Ok tt, s') /\
    BitStringAgg_rows 12 (fun _ => 205) INTEGER (mkBindData (Some 10) (Some 13))
      (replicate 3 11) (mkBitAggState false (Inlined []) 0 0, ∅) = (Ok tt, s') /\
    BitStringAgg_Operation 12 (fun _ => 205) INTEGER (mkBindData (Some 10) (Some 13))
      11 s' = (Ok tt, s').
Proof.
  apply (BitStringAgg_constant_vector 12 (fun _ => 205) INTEGER 10 13 11 [] 3
           (mkBitAggState false (Inlined []) 0 0, ∅)).
  - right. split; reflexivity.
  - lia.
  - lia.
  - lia.
Defined.

(** [Combine] of the bitmap of the row 11 over [[10, 13]] into an unset
    target. *)
Lemma BitStringAgg_Combine_union_witness :
  exists s' data,
    BitStringAgg_Combine 12 (fun _ => 205) (mkBitAggState true (Inlined [4; 4]) 10 13)
      (mkBitAggState false (Inlined []) 0 0, ∅) = (Ok tt, s') /\
    BitStringAgg_Finalize s' = (Ok (Some data), s') /\
    BitLength data = 4 /\
    GetBit_bytes data 1 = true.
Proof.
  destruct (BitStringAgg_Combine_union 12 (fun _ => 205) 10 13 [11] []
              (mkBitAggState true (Inlined [4; 4]) 10 13)
              (mkBitAggState false (Inlined []) 0 0) ∅)
    as (s' & data & Hcombine & Hfinalize & Hlen & Hbits & _).
  - lia.
  - split; [reflexivity|]. split; [reflexivity|]. split; [reflexivity|].
    exists [4; 4]. split; [reflexivity|]. split; [split; reflexivity|].
    intros i Hi. rewrite list_elem_of_singleton.
    assert (i = 0 \/ i = 1 \/ i = 2 \/ i = 3) as [-> | [-> | [-> | ->]]] by lia;
      (split; [intros Hbit; vm_compute in Hbit; try discriminate; reflexivity
              |intros Hin; try lia; reflexivity]).
  - right. split; reflexivity.
  - exists s', data. split; [exact Hcombine|]. split; [exact Hfinalize|].
    split; [exact Hlen|]. apply (Hbits 1); [lia|]. left. apply list_elem_of_singleton.
    reflexivity.
Defined.



(** [bitstring_agg(x)] over a column whose statistics have no [min]. *)
Lemma null_statistics_reach_Operation_witness :
  BitStringAgg_Operation 12 (fun _ => 205) INTEGER (mkBindData None None) 7
    (mkBitAggState false (Inlined []) 0 0, ∅)
  = (Undefined NullValueRead, (mkBitAggState false (Inlined []) 0 0, ∅)).
Proof.
  destruct (null_statistics_reach_Operation 12 (fun _ => 205) INTEGER [None]
              (mkNumericStatistics None (Some 9)) (mkNodeStatistics true) 7
              (mkBitAggState false (Inlined []) 0 0) ∅)
    as (bind_data & _ & -> & Hop).
  - cbn. lia.
  - reflexivity.
  - left. reflexivity.
  - reflexivity.
  - exact Hop.
Defined.
